(** * Promiseifyish: a shallow embedding of the callback-to-promise adapter

    The development follows the adapter module of the repository
    (getType, isFunction, isObject, execute, getAllFunctionNames,
    Promiseify, doPromiseify, buildWithOutcomeRedirector and the nodeStyle
    preset).  JavaScript objects live in a heap, option records in a
    second store, and every function of the module is a state-passing
    function over the two stores. *)

From Stdlib Require Import ZArith String Ascii.
From Stdlib Require OrderedTypeEx.
From stdpp Require Import base option list gmap strings sorting.

Local Open Scope string_scope.
Local Open Scope list_scope.

(** ** Values and objects *)

Abbreviation loc := nat (only parsing).

(** Primitive values and references; numbers are integers plus NaN, which
    is all that truthiness distinguishes. *)
Inductive value :=
| VUndefined
| VNull
| VBool (b : bool)
| VNum (n : Z)
| VNaN
| VStr (s : string)
| VRef (l : loc).

(** What can be thrown: a value ([throw 'Cannot promiseify ...']) or the
    engine's TypeError (reading a property of null, applying a
    non-callable). *)
Inductive exn :=
| ThrowValue (v : value)
| TypeError.

Inductive completion (A : Type) :=
| Normal (a : A)
| Thrown (e : exn).
Arguments Normal {A} a.
Arguments Thrown {A} e.

(** The two injected trailing handlers. *)
Inductive slot := OnSuccess | OnError.

(** The closures of the module, and host callables. *)
Inductive code :=
| Foreign (id : nat)
  (* a callable of the host program: an original, a user handler, a
     user redirector *)
| Promiseified (target : value) (options : loc) (context : value)
  (* the function returned at line 119, closed over target, options,
     context *)
| Injected (s : slot) (promise : loc) (options : loc)
           (successHandler failureHandler : value)
  (* onSuccessPromiseified / onErrorPromiseified, lines 211 and 223 *)
| TrueRedirector     (* line 216 *)
| FalseRedirector    (* line 228 *)
| ErrorFirst.        (* error => !error, line 298 *)

(** What a promise is settled with: the array of result arguments
    (resolve(executionArgs), reject(executionArgs)) or what the executor
    threw. *)
Inductive payload :=
| PArgs (R : list value)
| PExn (e : exn).

Inductive pstate :=
| Pending
| Fulfilled (r : payload)
| Rejected (r : payload).

Inductive kind :=
| KObject
| KArray
| KFunction (c : code)
| KPromise (s : pstate).

Record object := Object {
  o_kind : kind;
  o_props : gmap string value;
  o_proto : option loc
}.

(** The heap is a vector of objects; a location is an index, allocation
    appends. *)
Abbreviation heap := (list object) (only parsing).

Definition alloc (h : heap) (o : object) : heap * loc := (h ++ [o], length h).

(** The option record of Promiseify(target, options). *)
Record options := Options {
  only : option (list string);
  include : option (list string);
  exclude : option (list string);
  outcomeRedirector : value
}.

Definition empty_options : options := Options None None None VUndefined.

(** Calls the adapter makes into host code, by call site. *)
Inductive event :=
| EOriginal (target context : value) (args : list value)   (* line 235 *)
| EHandler (fn : value) (args : list value)                (* lines 196, 206 *)
| ERedirector (fn : value) (args : list value).            (* lines 219, 231 *)

Record state := State {
  st_heap : heap;
  st_opts : list options;
  st_trace : list event
}.

(** ** Truthiness, typeof and the prototype chain *)

Definition truthy (v : value) : bool :=
  match v with
  | VUndefined | VNull | VNaN => false
  | VBool b => b
  | VNum n => negb (n =? 0)%Z
  | VStr s => negb (String.eqb s "")
  | VRef _ => true
  end.

(** Object.getPrototypeOf.  Prototype links point to older objects: a heap
    is numbered so that a prototype has a smaller location than its heir
    (chains are acyclic in JavaScript, so such a numbering exists), and the
    adapter itself only ever allocates functions whose prototype already
    exists. *)
Definition getPrototypeOf (h : heap) (l : loc) : option loc :=
  match h !! l with
  | Some o =>
      match o_proto o with
      | Some p => if decide (p < l) then Some p else None
      | None => None
      end
  | None => None
  end.

(** The objects visited by  do { ... } while (target = Object.getPrototypeOf(target)). *)
Fixpoint chain_from (h : heap) (fuel : nat) (l : loc) : list loc :=
  match fuel with
  | O => []
  | S n =>
      l :: match getPrototypeOf h l with
           | Some p => chain_from h n p
           | None => []
           end
  end.

Definition proto_chain (h : heap) (l : loc) : list loc := chain_from h (S l) l.

(** What a host callable does when it is applied, as far as the adapter can
    see: it calls some of the values it holds (the injected handlers it was
    given, now or in an earlier call), each call either guarded by a
    try/catch of its own or not, and then returns or throws. *)
Inductive body :=
| BReturn (v : value)
| BThrow (e : value)
| BFire (f : value) (R : list value) (caught : bool) (k : body).

(** The intrinsics the module refers to, and the host program: [host id st
    this args] is what the callable [Foreign id] does when applied in state
    [st]. *)
Record realm := Realm {
  Function_prototype : loc;
  Object_prototype : loc;
  Promise_prototype : loc;
  host : nat -> state -> value -> list value -> body;
  (* Object.getOwnPropertyNames(Object.getPrototypeOf(new Object())), line 48 *)
  OBJECT_PROTOTYPE_FUNCTION_NAMES : list string
}.

(** getType, line 9: typeof. *)
Definition getType (h : heap) (o : value) : string :=
  match o with
  | VUndefined => "undefined"
  | VNull => "object"
  | VBool _ => "boolean"
  | VNum _ | VNaN => "number"
  | VStr _ => "string"
  | VRef l =>
      match h !! l with
      | Some ob => match o_kind ob with KFunction _ => "function" | _ => "object" end
      | None => "object"
      end
  end.

(** candidate instanceof Function: Function.prototype occurs among the
    proper ancestors of an object; false for primitives. *)
Definition instanceofFunction (rl : realm) (h : heap) (candidate : value) : bool :=
  match candidate with
  | VRef l => bool_decide (Function_prototype rl ∈ tail (proto_chain h l))
  | _ => false
  end.

(** isFunction, line 19. *)
Definition isFunction (rl : realm) (h : heap) (candidate : value) : bool :=
  String.eqb "function" (getType h candidate) || instanceofFunction rl h candidate.

(** isObject, line 29. *)
Definition isObject (h : heap) (candidate : value) : bool :=
  String.eqb "object" (getType h candidate).

(** ** Property access *)

Definition own (h : heap) (l : loc) (name : string) : option value :=
  match h !! l with
  | Some o => o_props o !! name
  | None => None
  end.

Fixpoint lookup_chain (h : heap) (ls : list loc) (name : string) : value :=
  match ls with
  | [] => VUndefined
  | l :: ls' =>
      match own h l name with
      | Some v => v
      | None => lookup_chain h ls' name
      end
  end.

(** target[name] on an object: the first own data property along the
    prototype chain (accessors are not modelled). *)
Definition get (h : heap) (l : loc) (name : string) : value :=
  lookup_chain h (proto_chain h l) name.

(** target[name] as an expression: reading a property of null or undefined
    throws.  The module never reads a property of another primitive. *)
Definition read_prop (h : heap) (target : value) (name : string) : completion value :=
  match target with
  | VRef l => Normal (get h l name)
  | VNull | VUndefined => Thrown TypeError
  | _ => Normal VUndefined
  end.

(** target[name] = v on an ordinary object: creates or overwrites the own
    data property. *)
Definition set_prop (h : heap) (l : loc) (name : string) (v : value) : heap :=
  match h !! l with
  | Some o => <[l := Object (o_kind o) (<[name := v]> (o_props o)) (o_proto o)]> h
  | None => h
  end.

Definition getOwnPropertyNames (h : heap) (l : loc) : list string :=
  match h !! l with
  | Some o => (map_to_list (o_props o)).*1
  | None => []
  end.

(** Array.prototype.includes on an array of names. *)
Definition includes (names : list string) (name : string) : bool :=
  bool_decide (name ∈ names).

(** Array.prototype.sort() without a comparator: ascending by code units. *)
Definition string_le (a b : string) : Prop := String.leb a b = true.

#[global] Instance string_le_dec (a b : string) : Decision (string_le a b).
Proof. unfold string_le. apply _. Defined.

Definition sort (names : list string) : list string := merge_sort string_le names.

(** ** getAllFunctionNames, line 56 *)

(** One turn of the do-while body, lines 61-66: the four filters run on the
    own names of the object the loop is at, then forEach pushes. *)
Definition collect_level (rl : realm) (h : heap) (functionNames : list string) (target : loc)
  : list string :=
  functionNames ++
  List.filter (fun name => negb (includes functionNames name))
    (List.filter (fun name => negb (includes (OBJECT_PROTOTYPE_FUNCTION_NAMES rl) name))
      (List.filter (fun name => isFunction rl h (get h target name))
        (List.filter (fun name => truthy (get h target name))
          (getOwnPropertyNames h target)))).

Definition getAllFunctionNames (rl : realm) (h : heap) (target : value) : list string :=
  let functionNames :=
    if truthy target && isObject h target then
      match target with
      | VRef l => foldl (collect_level rl h) [] (proto_chain h l)
      | _ => []
      end
    else [] in
  sort functionNames.

(** ** doPromiseify, line 113: adaptation *)

Definition with_heap (st : state) (h : heap) : state :=
  State h (st_opts st) (st_trace st).

(** options = options || {}, line 116. *)
Definition normalize_options (st : state) (opts : option loc) : state * loc :=
  match opts with
  | Some o => (st, o)
  | None => (State (st_heap st) (st_opts st ++ [empty_options]) (st_trace st),
             length (st_opts st))
  end.

(** The first branch, lines 118-237: a new function closed over target,
    options and context. *)
Definition promiseifyFunction (rl : realm) (st : state) (target : value) (o : loc)
    (context : value) : state * value :=
  let '(h, w) := alloc (st_heap st)
                   (Object (KFunction (Promiseified target o context)) ∅
                           (Some (Function_prototype rl))) in
  (with_heap st h, VRef w).

(** options.include.forEach, lines 250-254. *)
Fixpoint include_loop (rl : realm) (h : heap) (promisifiedObject : value)
    (names targetFunctions : list string) : completion (list string) :=
  match names with
  | [] => Normal targetFunctions
  | name :: rest =>
      if negb (includes targetFunctions name) then
        match read_prop h promisifiedObject name with
        | Thrown e => Thrown e
        | Normal v =>
            include_loop rl h promisifiedObject rest
              (if isFunction rl h v then targetFunctions ++ [name] else targetFunctions)
        end
      else include_loop rl h promisifiedObject rest targetFunctions
  end.

(** options.exclude.forEach, lines 258-262. *)
Definition exclude_loop (names targetFunctions : list string) : list string :=
  foldl (fun tf name => List.filter (fun candidate => negb (String.eqb candidate name)) tf)
        targetFunctions names.

(** targetFunctions.forEach, lines 267-271.  The recursive call of line 269
    is guarded by isFunction, so it always takes the first branch. *)
Fixpoint promiseify_loop (rl : realm) (st : state) (target : value) (o : loc)
    (names : list string) : state * completion unit :=
  match names with
  | [] => (st, Normal tt)
  | name :: rest =>
      match read_prop (st_heap st) target name with
      | Thrown e => (st, Thrown e)
      | Normal v =>
          if isFunction rl (st_heap st) v then
            let '(st1, w) := promiseifyFunction rl st v o target in
            let st2 := match target with
                       | VRef l => with_heap st1 (set_prop (st_heap st1) l name w)
                       | _ => st1
                       end in
            promiseify_loop rl st2 target o rest
          else promiseify_loop rl st target o rest
      end
  end.

Definition doPromiseify (rl : realm) (st : state) (target : value) (opts : option loc)
    (context : value) : state * completion value :=
  let '(st, o) := normalize_options st opts in
  let h := st_heap st in
  if isFunction rl h target then
    let '(st1, w) := promiseifyFunction rl st target o context in (st1, Normal w)
  else if isObject h target then
    let options := default empty_options (st_opts st !! o) in
    let targetFunctions := getAllFunctionNames rl h target in
    let selected :=
      match only options with
      | Some names => Normal names
      | None =>
          let included :=
            match include options with
            | Some names => include_loop rl h target names []
            | None => Normal targetFunctions
            end in
          match included with
          | Thrown e => Thrown e
          | Normal tf =>
              match exclude options with
              | Some names => Normal (exclude_loop names tf)
              | None => Normal tf
              end
          end
      end in
    match selected with
    | Thrown e => (st, Thrown e)
    | Normal names =>
        match promiseify_loop rl st target o names with
        | (st1, Thrown e) => (st1, Thrown e)
        | (st1, Normal _) => (st1, Normal target)
        end
    end
  else
    (st, Thrown (ThrowValue (VStr ("Cannot promiseify type: " +:+ getType h target)))).

(** Promiseify, line 90. *)
Definition Promiseify (rl : realm) (st : state) (target : value) (opts : option loc)
  : state * completion value :=
  doPromiseify rl st target opts VNull.

(** ** Calling an adapted function, lines 119-237 *)

Definition code_of (h : heap) (f : value) : option code :=
  match f with
  | VRef l =>
      match h !! l with
      | Some o => match o_kind o with KFunction c => Some c | _ => None end
      | None => None
      end
  | _ => None
  end.

Definition log (st : state) (e : event) : state :=
  State (st_heap st) (st_opts st) (st_trace st ++ [e]).

(** arguments[i]; an index out of range, negative included, reads undefined. *)
Definition arg (arguments : list value) (i : Z) : value :=
  if (i <? 0)%Z then VUndefined else default VUndefined (arguments !! Z.to_nat i).

(** xs.slice(0, e); a negative end counts from the end of the array. *)
Definition slice0 (xs : list value) (e : Z) : list value :=
  if (e <? 0)%Z then take (Z.to_nat (Z.max (Z.of_nat (length xs) + e) 0)) xs
  else take (Z.to_nat e) xs.

Record separated := Separated {
  successHandler : value;
  failureHandler : value;
  executionArguments : list value
}.

(** Lines 134-183.  The empty statement  if (0 === arguments.length) {}  of
    line 145 is followed by an independent if/else, so an empty argument
    list goes through the else branch of line 161. *)
Definition separate (rl : realm) (h : heap) (arguments : list value) : separated :=
  let n := Z.of_nat (length arguments) in
  let untouched := Separated VUndefined VUndefined arguments in
  if (n =? 1)%Z then
    if isFunction rl h (arg arguments 0) then Separated (arg arguments 0) VUndefined []
    else untouched
  else
    if isFunction rl h (arg arguments (n - 1)) && isFunction rl h (arg arguments (n - 2)) then
      Separated (arg arguments (n - 2)) (arg arguments (n - 1)) (slice0 arguments (n - 2))
    else if isFunction rl h (arg arguments (n - 1)) then
      Separated (arg arguments (n - 1)) VUndefined (slice0 arguments (n - 1))
    else untouched.

(** A callee that is applied as a handler or a redirector: its result.  The
    calls a host callable makes in that role are not followed (handlers and
    redirectors that re-enter the adapter are outside the model, as are
    adapted or injected functions passed back in as handlers). *)
Fixpoint run_leaf (b : body) : completion value :=
  match b with
  | BReturn v => Normal v
  | BThrow e => Thrown (ThrowValue e)
  | BFire _ _ _ k => run_leaf k
  end.

Definition apply_leaf (rl : realm) (st : state) (fn this : value) (args : list value)
  : completion value :=
  match code_of (st_heap st) fn with
  | None => Thrown TypeError
  | Some (Foreign id) => run_leaf (host rl id st this args)
  | Some TrueRedirector => Normal (VBool true)
  | Some FalseRedirector => Normal (VBool false)
  | Some ErrorFirst => Normal (VBool (negb (truthy (arg args 0))))
  | Some (Promiseified _ _ _) | Some (Injected _ _ _ _ _) => Normal VUndefined
  end.

(** execute, line 40. *)
Definition execute (rl : realm) (st : state) (site : value -> list value -> event)
    (fn : value) (args : list value) (context : value) : state * completion value :=
  if isFunction rl (st_heap st) fn then
    let '(st1, this) :=
      if truthy context then (st, context)
      else let '(h, l) := alloc (st_heap st) (Object KObject ∅ (Some (Object_prototype rl))) in
           (with_heap st h, VRef l) in
    let st2 := log st1 (site fn args) in
    (st2, apply_leaf rl st2 fn this args)
  else (st, Normal VNull).

(** resolve and reject of a native promise: the first settlement wins. *)
Definition settle (h : heap) (p : loc) (s : pstate) : heap :=
  match h !! p with
  | Some o =>
      match o_kind o with
      | KPromise Pending => <[p := Object (KPromise s) (o_props o) (o_proto o)]> h
      | _ => h
      end
  | None => h
  end.

Definition promise_state (h : heap) (p : loc) : option pstate :=
  match h !! p with
  | Some o => match o_kind o with KPromise s => Some s | _ => None end
  | None => None
  end.

(** executeSuccess, line 195. *)
Definition executeSuccess (rl : realm) (st : state) (p : loc) (successHandler : value)
    (executionArgs : list value) : state * completion unit :=
  match execute rl st EHandler successHandler executionArgs VUndefined with
  | (st1, Thrown e) => (st1, Thrown e)
  | (st1, Normal _) =>
      (with_heap st1 (settle (st_heap st1) p (Fulfilled (PArgs executionArgs))), Normal tt)
  end.

(** executeFailure, line 205. *)
Definition executeFailure (rl : realm) (st : state) (p : loc) (failureHandler : value)
    (executionArgs : list value) : state * completion unit :=
  match execute rl st EHandler failureHandler executionArgs VUndefined with
  | (st1, Thrown e) => (st1, Thrown e)
  | (st1, Normal _) =>
      (with_heap st1 (settle (st_heap st1) p (Rejected (PArgs executionArgs))), Normal tt)
  end.

Definition default_redirector (s : slot) : code :=
  match s with
  | OnSuccess => TrueRedirector
  | OnError => FalseRedirector
  end.

Definition set_redirector (op : options) (r : value) : options :=
  Options (only op) (include op) (exclude op) r.

(** options.outcomeRedirector = options.outcomeRedirector || function ...,
    lines 216 and 228: the function expression is evaluated, and stored in
    the option record, only when the field is falsy. *)
Definition ensure_redirector (rl : realm) (st : state) (o : loc) (s : slot) : state :=
  match st_opts st !! o with
  | Some op =>
      if truthy (outcomeRedirector op) then st
      else
        let '(h, r) := alloc (st_heap st)
                         (Object (KFunction (default_redirector s)) ∅
                                 (Some (Function_prototype rl))) in
        State h (<[o := set_redirector op (VRef r)]> (st_opts st)) (st_trace st)
  | None => st
  end.

(** onSuccessPromiseified and onErrorPromiseified, lines 211-232. *)
Definition fire (rl : realm) (st : state) (s : slot) (p o : loc)
    (successHandler failureHandler : value) (executionArgs : list value)
  : state * completion unit :=
  let st1 := ensure_redirector rl st o s in
  let redirector := outcomeRedirector (default empty_options (st_opts st1 !! o)) in
  match execute rl st1 ERedirector redirector executionArgs VUndefined with
  | (st2, Thrown e) => (st2, Thrown e)
  | (st2, Normal v) =>
      if truthy v then executeSuccess rl st2 p successHandler executionArgs
      else executeFailure rl st2 p failureHandler executionArgs
  end.

(** A host callable calls [f] with [R].  Only a call of an injected handler
    concerns the adapter; a call of any other function leaves its state
    alone, and a call of what is not a function throws. *)
Definition call_value (rl : realm) (st : state) (f : value) (R : list value)
  : state * completion unit :=
  match code_of (st_heap st) f with
  | Some (Injected s p o sH fH) => fire rl st s p o sH fH R
  | Some _ => (st, Normal tt)
  | None => (st, Thrown TypeError)
  end.

Fixpoint run_body (rl : realm) (st : state) (b : body) : state * completion value :=
  match b with
  | BReturn v => (st, Normal v)
  | BThrow e => (st, Thrown (ThrowValue e))
  | BFire f R caught k =>
      match call_value rl st f R with
      | (st1, Thrown e) => if caught then run_body rl st1 k else (st1, Thrown e)
      | (st1, Normal _) => run_body rl st1 k
      end
  end.

(** target.apply(context, executionArguments), line 235.  A host callable
    runs its body; an original that is itself a function of the adapter (an
    object adapted twice) is entered but not followed. *)
Definition apply_target (rl : realm) (st : state) (target context : value)
    (args : list value) : state * completion value :=
  match code_of (st_heap st) target with
  | None => (st, Thrown TypeError)
  | Some c =>
      let st1 := log st (EOriginal target context args) in
      match c with
      | Foreign id => run_body rl st1 (host rl id st1 context args)
      | _ => (st1, apply_leaf rl st1 target context args)
      end
  end.

(** The adapted function, lines 119-237.  The executor of new Promise runs
    at once; what it throws rejects the promise. *)
Definition call_promiseified (rl : realm) (st : state) (target : value) (o : loc)
    (context : value) (arguments : list value) : state * completion value :=
  let sep := separate rl (st_heap st) arguments in
  let fp := Some (Function_prototype rl) in
  let '(h1, p) :=
    alloc (st_heap st) (Object (KPromise Pending) ∅ (Some (Promise_prototype rl))) in
  let '(h2, onSuccess) :=
    alloc h1 (Object (KFunction (Injected OnSuccess p o (successHandler sep) (failureHandler sep)))
                     ∅ fp) in
  let '(h3, onError) :=
    alloc h2 (Object (KFunction (Injected OnError p o (successHandler sep) (failureHandler sep)))
                     ∅ fp) in
  let args := executionArguments sep ++ [VRef onSuccess; VRef onError] in
  match apply_target rl (with_heap st h3) target context args with
  | (st1, Thrown e) =>
      (with_heap st1 (settle (st_heap st1) p (Rejected (PExn e))), Normal (VRef p))
  | (st1, Normal _) => (st1, Normal (VRef p))
  end.

(** A call  w(...arguments)  of a value produced by the adapter. *)
Definition invoke (rl : realm) (st : state) (w : value) (arguments : list value)
  : state * completion value :=
  match code_of (st_heap st) w with
  | Some (Promiseified target o context) => call_promiseified rl st target o context arguments
  | Some (Injected s p o sH fH) =>
      match fire rl st s p o sH fH arguments with
      | (st1, Thrown e) => (st1, Thrown e)
      | (st1, Normal _) => (st1, Normal VUndefined)
      end
  | Some _ => (st, apply_leaf rl st w VUndefined arguments)
  | None => (st, Thrown TypeError)
  end.

(** ** Presets *)

(** buildWithOutcomeRedirector, line 287. *)
Definition buildWithOutcomeRedirector (rl : realm) (st : state) (target : value)
    (opts : option loc) (redirector : value) : state * completion value :=
  let '(st1, o) := normalize_options st opts in
  let st2 :=
    match st_opts st1 !! o with
    | Some op => State (st_heap st1) (<[o := set_redirector op redirector]> (st_opts st1))
                       (st_trace st1)
    | None => st1
    end in
  Promiseify rl st2 target (Some o).

(** Promiseify.nodeStyle, line 298. *)
Definition nodeStyle (rl : realm) (st : state) (target : value) (opts : option loc)
  : state * completion value :=
  let '(h, r) := alloc (st_heap st)
                   (Object (KFunction ErrorFirst) ∅ (Some (Function_prototype rl))) in
  buildWithOutcomeRedirector rl (with_heap st h) target opts (VRef r).

(** ** The spec's predicates *)

Definition isArray (h : heap) (x : value) : bool :=
  match x with
  | VRef l =>
      match h !! l with
      | Some o => match o_kind o with KArray => true | _ => false end
      | None => false
      end
  | _ => false
  end.

Definition isNull (x : value) : bool :=
  match x with VNull => true | _ => false end.

(** isRecord as the spec words it: "true iff x is a non-null, non-array
    structured value", a structured value being one whose type is object.
    It is compared below with isObject, which is what the code tests. *)
Definition isRecord_spec (h : heap) (x : value) : bool :=
  negb (isNull x) && negb (isArray h x) && String.eqb "object" (getType h x).

(** The names one object of a prototype chain contributes to
    getAllFunctionNames: its own names with a callable value that
    Object.prototype does not define. *)
Definition contributes (rl : realm) (h : heap) (a : loc) (name : string) : Prop :=
  (name ∉ OBJECT_PROTOTYPE_FUNCTION_NAMES rl) /\
  exists v, own h a name = Some v /\ isFunction rl h v = true.

(** ** Well-formed heaps and how heaps grow *)

(** A reference is valid when it points into the heap. *)
Definition valid (h : heap) (v : value) : bool :=
  match v with
  | VRef l => bool_decide (l < length h)
  | _ => true
  end.

(** A closed heap stores no dangling reference in a property. *)
Definition heap_closed (h : heap) : bool :=
  forallb (fun ob => forallb (fun kv => valid h kv.2) (map_to_list (o_props ob))) h.

(** What no step of the adapter changes in an object: its prototype,
    whether it is a function and which, and the state of a promise that is
    settled; properties may change, and a pending promise may settle. *)
Definition same_shape (ob ob' : object) : Prop :=
  o_proto ob' = o_proto ob /\
  match o_kind ob with
  | KFunction c => o_kind ob' = KFunction c
  | KPromise s => exists s', o_kind ob' = KPromise s' /\ (s <> Pending -> s' = s)
  | KObject => o_kind ob' = KObject
  | KArray => o_kind ob' = KArray
  end.

Definition extends (h h' : heap) : Prop :=
  forall l ob, h !! l = Some ob -> exists ob', h' !! l = Some ob' /\ same_shape ob ob'.

Definition is_original (e : event) : bool :=
  match e with EOriginal _ _ _ => true | _ => false end.

(** What a step that runs handlers does to a state: the heap grows, no
    promise is created, and no original is entered. *)
Definition evolves (st st' : state) : Prop :=
  extends (st_heap st) (st_heap st') /\
  (forall l, length (st_heap st) <= l -> promise_state (st_heap st') l = None) /\
  exists evs, st_trace st' = st_trace st ++ evs /\
              forallb (fun e => negb (is_original e)) evs = true.

(** ** The point at which the original is entered *)

Definition promise_object (rl : realm) : object :=
  Object (KPromise Pending) ∅ (Some (Promise_prototype rl)).

Definition injected_object (rl : realm) (s : slot) (p o : loc) (sep : separated) : object :=
  Object (KFunction (Injected s p o (successHandler sep) (failureHandler sep))) ∅
         (Some (Function_prototype rl)).

(** The heap in which line 235 runs: the promise and the two injected
    handlers follow the objects that were there. *)
Definition entry_heap (rl : realm) (h : heap) (o : loc) (sep : separated) : heap :=
  h ++ [promise_object rl;
        injected_object rl OnSuccess (length h) o sep;
        injected_object rl OnError (length h) o sep].

(** The arguments of line 235. *)
Definition entry_args (h : heap) (sep : separated) : list value :=
  executionArguments sep ++ [VRef (S (length h)); VRef (S (S (length h)))].

(** The heap after line 269 has run for one member: the wrapper is the new
    object, the member is the target's own property. *)
Definition wrapped_heap (rl : realm) (h : heap) (l o : loc) (name : string) : heap :=
  set_prop (h ++ [Object (KFunction (Promiseified (get h l name) o (VRef l))) ∅
                         (Some (Function_prototype rl))])
           l name (VRef (length h)).

(** A step keeps the option record [o] when the record carries a
    redirector: the defaults of lines 216 and 228 are only stored in a
    record that has none. *)
Definition keeps (o : loc) (op : options) (st st' : state) : Prop :=
  st_opts st !! o = Some op -> truthy (outcomeRedirector op) = true ->
  st_opts st' !! o = Some op.

(** The state after line 269 has run for the member [name], whose value
    [v] is callable, whatever the target is. *)
Definition member_wrapped (rl : realm) (st : state) (target : value) (o : loc)
    (name : string) (v : value) : state :=
  let h := st_heap st ++ [Object (KFunction (Promiseified v o target)) ∅
                                 (Some (Function_prototype rl))] in
  match target with
  | VRef l => with_heap st (set_prop h l name (VRef (length (st_heap st))))
  | _ => with_heap st h
  end.

(** The option record [o] carries the error-first redirector of line 298. *)
Definition error_first_at (st : state) (o : loc) : Prop :=
  exists op r, st_opts st !! o = Some op /\ outcomeRedirector op = VRef r /\
               code_of (st_heap st) (VRef r) = Some ErrorFirst.

(** ** A small host program, used to run the definitions

    Location 0 is Object.prototype, 1 Function.prototype, 2
    Promise.prototype, 3 Array.prototype; a settings manager in the style of
    the example page (a class with load and save, one instance) and an empty
    array follow. *)
Module Demo.

(** The own property names of Object.prototype (object 0 below). *)
Definition object_names : list string :=
  ["constructor"; "hasOwnProperty"; "isPrototypeOf"; "propertyIsEnumerable";
   "toLocaleString"; "toString"; "valueOf"; "__proto__"].

(** Host callables by number:
    - 0: returns at once (the prototype methods, the class constructor);
    - 1: load(success, failure), calls success(7);
    - 2: save(data, success, failure), calls success();
    - 3: pick(flag, success, failure), calls success() when flag is truthy
         and failure() otherwise;
    - 4: throws 'boom' at once;
    - 5: calls its first argument with 1, then throws 'late';
    - 6: fetch(callback), calls callback('boom');
    - 7: a handler that throws 'handler';
    - 8: calls its first argument with 1 and then its second with 2. *)
Definition program (id : nat) (st : state) (this : value) (args : list value) : body :=
  match id with
  | 1 => BFire (arg args 0) [VNum 7] false (BReturn VUndefined)
  | 2 => BFire (arg args 1) [] false (BReturn VUndefined)
  | 3 => if truthy (arg args 0)
         then BFire (arg args 1) [] false (BReturn VUndefined)
         else BFire (arg args 2) [] false (BReturn VUndefined)
  | 4 => BThrow (VStr "boom")
  | 5 => BFire (arg args 0) [VNum 1] false (BThrow (VStr "late"))
  | 6 => BFire (arg args 0) [VStr "boom"] false (BReturn VUndefined)
  | 7 => BThrow (VStr "handler")
  | 8 => BFire (arg args 0) [VNum 1] false (BFire (arg args 1) [VNum 2] false (BReturn VUndefined))
  | _ => BReturn VUndefined
  end%nat.

Definition rl : realm := Realm 1 0 2 program object_names.

Definition fn (id : nat) : object := Object (KFunction (Foreign id)) ∅ (Some 1%nat).

Definition h0 : heap :=
  [ (* 0 *) Object KObject
              {[ "constructor" := VRef 4; "hasOwnProperty" := VRef 4;
                 "isPrototypeOf" := VRef 4; "propertyIsEnumerable" := VRef 4;
                 "toLocaleString" := VRef 4; "toString" := VRef 4;
                 "valueOf" := VRef 4; "__proto__" := VNull ]}
              None;
    (* 1 *) Object (KFunction (Foreign 0)) {[ "apply" := VRef 4 ]} (Some 0%nat);
    (* 2 *) Object KObject {[ "then" := VRef 4 ]} (Some 0%nat);
    (* 3 *) Object KObject {[ "push" := VRef 4 ]} (Some 0%nat);
    (* 4 *) fn 0;
    (* 5 *) fn 1;
    (* 6 *) fn 2;
    (* 7 *) Object KObject
              {[ "constructor" := VRef 4; "load" := VRef 5; "save" := VRef 6 ]}
              (Some 0%nat);
    (* 8 *) Object KObject {[ "name" := VStr "settings"; "version" := VNum 3 ]} (Some 7%nat);
    (* 9 *) Object KArray {[ "length" := VNum 0 ]} (Some 3%nat);
    (* 10 *) fn 3;
    (* 11 *) fn 4;
    (* 12 *) fn 5;
    (* 13 *) fn 6;
    (* 14 *) fn 7;
    (* 15 *) fn 8 ].

Definition manager : value := VRef 8.
Definition array : value := VRef 9.

Definition st0 : state := State h0 [] [].

(** A state in which an empty option record exists, as after line 116. *)
Definition st_plain : state := State h0 [empty_options] [].

(** A state in which the caller has built  { only: ['save'] }. *)
Definition st_only : state := State h0 [Options (Some ["save"]) None None VUndefined] [].

(** A state in which the caller has built
    { only: ['version', 'missing', 'load'] }: a member that is not callable,
    a name the object does not have, and a method. *)
Definition st_mixed : state :=
  State h0 [Options (Some ["version"; "missing"; "load"]) None None VUndefined] [].



(** fetch adapted with the error-first preset (the redirector is object
    16, the adapted function 17, its option record 0), and the state in
    which a call of it with no argument enters fetch: promise 18, injected
    handlers 19 and 20. *)
Definition st_node : state := (nodeStyle rl st0 (VRef 13) None).1.

Definition st_node_entry : state :=
  with_heap st_node (entry_heap rl (st_heap st_node) 0 (separate rl (st_heap st_node) [])).

End Demo.

(** ** Which members an adaptation selects *)

(** The names lines 241-264 select on an object, as the comment of lines
    76-84 describes them: those of only when it is given; otherwise those of
    include, or every function name when include is absent, less those of
    exclude. *)
Definition selects (rl : realm) (h : heap) (l : loc) (op : options) (name : string) : Prop :=
  match only op with
  | Some names => name ∈ names
  | None =>
      match include op with
      | Some names => name ∈ names
      | None => name ∈ getAllFunctionNames rl h (VRef l)
      end /\
      match exclude op with
      | Some names => name ∉ names
      | None => True
      end
  end.

(** A member that the loop of line 267 has adapted: the object's own
    property is a function that was not in the heap, the adaptation of the
    value the name had, bound to the object. *)
Definition adapted_member (rl : realm) (h h' : heap) (l o : loc) (name : string) : Prop :=
  exists w, length h <= w /\ own h' l name = Some (VRef w) /\
            code_of h' (VRef w) = Some (Promiseified (get h l name) o (VRef l)).


(** The state in which line 235 enters the original: the promise and the
    injected handlers exist, and the call is on the trace. *)
Definition entry_state (rl : realm) (st : state) (target : value) (o : loc)
    (context : value) (arguments : list value) : state :=
  let sep := separate rl (st_heap st) arguments in
  log (with_heap st (entry_heap rl (st_heap st) o sep))
      (EOriginal target context (entry_args (st_heap st) sep)).

(** The injected handler of a slot, for a call made in heap [h]. *)
Definition injected_loc (h : heap) (s : slot) : loc :=
  match s with
  | OnSuccess => S (length h)
  | OnError => S (S (length h))
  end.

(** The caller's handler that goes with a slot when no redirector was
    supplied. *)
Definition handler_of (s : slot) (sep : separated) : value :=
  match s with
  | OnSuccess => successHandler sep
  | OnError => failureHandler sep
  end.

(** What a step may do to the option records: none appears or goes, the
    lists of a record stay, and so does a redirector that is set. *)
Definition same_lists (st st' : state) : Prop :=
  length (st_opts st') = length (st_opts st) /\
  forall o op, st_opts st !! o = Some op ->
    exists op', st_opts st' !! o = Some op' /\
                only op' = only op /\ include op' = include op /\ exclude op' = exclude op /\
                (truthy (outcomeRedirector op) = true -> op' = op).

(** ** More states of the host program *)
Module Cases.

(** The caller has built  { include: ['load', 'toString', 'version', 'load'],
    exclude: ['save', 'toString'] }. *)
Definition st_include : state :=
  State Demo.h0
        [Options None (Some ["load"; "toString"; "version"; "load"])
                 (Some ["save"; "toString"]) VUndefined] [].

(** The caller has built  { only: ['save'], include: ['load'],
    exclude: ['save'] }. *)
Definition st_only_and_more : state :=
  State Demo.h0 [Options (Some ["save"]) (Some ["load"]) (Some ["save"]) VUndefined] [].


(** States with a pending promise (object 16) and an option record whose
    outcomeRedirector the caller supplied: the function that returns
    undefined (object 4), the function that throws 'handler' (object 14),
    and the string 'yes', which is truthy and not callable. *)
Definition h_pending : heap := Demo.h0 ++ [promise_object Demo.rl].

Definition st_user_redirector : state :=
  State h_pending [Options None None None (VRef 4)] [].

Definition st_throwing_redirector : state :=
  State h_pending [Options None None None (VRef 14)] [].

Definition st_string_redirector : state :=
  State h_pending [Options None None None (VStr "yes")] [].

End Cases.

(** * Properties *)

Implicit Types (rl : realm) (h : heap) (st : state) (l p o w : loc).
Implicit Types (v target context : value) (name : string) (A R : list value).

(** ** Reading the argument list *)

Lemma arg_of_nat A (i : nat) : arg A (Z.of_nat i) = default VUndefined (A !! i).
Proof.
  unfold arg. destruct (Z.ltb_spec (Z.of_nat i) 0) as [Hneg|_]; [lia|].
  by rewrite Nat2Z.id.
Qed.

Lemma arg_last A z : arg (A ++ [z]) (Z.of_nat (length (A ++ [z])) - 1) = z.
Proof.
  rewrite length_app. simpl.
  replace (Z.of_nat (length A + 1) - 1)%Z with (Z.of_nat (length A)) by lia.
  rewrite arg_of_nat, lookup_app_r by lia.
  by rewrite Nat.sub_diag.
Qed.

Lemma arg_last_but_one A y z :
  arg (A ++ [y; z]) (Z.of_nat (length (A ++ [y; z])) - 2) = y.
Proof.
  rewrite length_app. simpl.
  replace (Z.of_nat (length A + 2) - 2)%Z with (Z.of_nat (length A)) by lia.
  rewrite arg_of_nat, lookup_app_r by lia.
  by rewrite Nat.sub_diag.
Qed.

Lemma arg_last_of_two A y z :
  arg (A ++ [y; z]) (Z.of_nat (length (A ++ [y; z])) - 1) = z.
Proof. change (A ++ [y; z]) with (A ++ [y] ++ [z]). rewrite (assoc_L (++)). apply arg_last. Qed.

Lemma slice0_front A B : slice0 (A ++ B) (Z.of_nat (length A)) = A.
Proof.
  unfold slice0. destruct (Z.ltb_spec (Z.of_nat (length A)) 0) as [Hneg|_]; [lia|].
  rewrite Nat2Z.id. by rewrite take_app_length.
Qed.

Lemma isFunction_primitive rl h v :
  (forall l, v <> VRef l) -> isFunction rl h v = false.
Proof. intros Hv. destruct v; try reflexivity. by destruct (Hv l). Qed.

(** C1: how the adapted function splits its argument list A into the
    success handler, the failure handler and the forwarded arguments.  An
    empty A has no handlers and is forwarded as it is; a single callable
    element is the success handler and nothing is forwarded, a single
    non-callable element is forwarded with no handlers; with two or more
    elements, two trailing callables are the success and the failure handler
    and are both stripped, a sole trailing callable is the success handler
    and is stripped, and otherwise A is forwarded unchanged with no
    handlers. *)
Theorem separate_classifies rl h :
  separate rl h [] = Separated VUndefined VUndefined [] /\
  (forall a,
     separate rl h [a] =
       if isFunction rl h a then Separated a VUndefined []
       else Separated VUndefined VUndefined [a]) /\
  (forall front y z,
     separate rl h (front ++ [y; z]) =
       if isFunction rl h z then
         if isFunction rl h y then Separated y z front
         else Separated z VUndefined (front ++ [y])
       else Separated VUndefined VUndefined (front ++ [y; z])).
Proof.
  split; [reflexivity|]. split.
  - intros a. unfold separate. change (arg [a] 0) with a.
    by destruct (isFunction rl h a).
  - intros front y z. unfold separate.
    destruct (Z.eqb_spec (Z.of_nat (length (front ++ [y; z]))) 1) as [Hlen|_].
    { rewrite length_app in Hlen. simpl in Hlen. lia. }
    rewrite arg_last_but_one, !arg_last_of_two.
    destruct (isFunction rl h z), (isFunction rl h y); simpl; try reflexivity.
    + f_equal. rewrite length_app. simpl.
      replace (Z.of_nat (length front + 2) - 2)%Z with (Z.of_nat (length front)) by lia.
      apply slice0_front.
    + f_equal. rewrite length_app. simpl.
      replace (Z.of_nat (length front + 2) - 1)%Z
        with (Z.of_nat (length (front ++ [y]))) by (rewrite length_app; simpl; lia).
      change (front ++ [y; z]) with (front ++ [y] ++ [z]).
      rewrite (assoc_L (++)). apply slice0_front.
Qed.

(** ** The type check of doPromiseify *)

Lemma getType_cases h v :
  getType h v ∈ ["undefined"; "object"; "boolean"; "number"; "string"; "function"].
Proof.
  rewrite !elem_of_cons.
  destruct v; simpl; auto 7.
  destruct (h !! l) as [ob|]; [destruct (o_kind ob)|]; auto 7.
Qed.

Lemma isFunction_false_getType rl h v :
  isFunction rl h v = false -> getType h v <> "function".
Proof.
  unfold isFunction. intros Hf Heq. rewrite Heq in Hf. discriminate.
Qed.

(** C5, as the code has it: a target for which isFunction is false and
    whose typeof is not object (undefined, a boolean, a number, a string)
    makes the adaptation throw, before anything is adapted, the string
    'Cannot promiseify type: ' followed by the typeof of the target. *)
Theorem doPromiseify_type_mismatch rl st target opts context :
  isFunction rl (st_heap st) target = false ->
  isObject (st_heap st) target = false ->
  exists st',
    doPromiseify rl st target opts context =
      (st', Thrown (ThrowValue
                      (VStr ("Cannot promiseify type: " +:+ getType (st_heap st) target)))) /\
    st_heap st' = st_heap st /\
    getType (st_heap st) target ∈ ["undefined"; "boolean"; "number"; "string"].
Proof.
  intros Hfun Hobj. unfold doPromiseify.
  destruct (normalize_options st opts) as [st1 o] eqn:Hnorm.
  assert (Hheap : st_heap st1 = st_heap st).
  { unfold normalize_options in Hnorm. destruct opts; inversion Hnorm; reflexivity. }
  rewrite Hheap, Hfun, Hobj. exists st1. split; [reflexivity|]. split; [exact Hheap|].
  pose proof (getType_cases (st_heap st) target) as Hcases.
  pose proof (isFunction_false_getType _ _ _ Hfun) as Hnf.
  unfold isObject in Hobj. apply String.eqb_neq in Hobj.
  rewrite !elem_of_cons in Hcases. rewrite !elem_of_cons.
  destruct Hcases as [Hc|[Hc|[Hc|[Hc|[Hc|[Hc|Hc]]]]]]; auto 6; try congruence.
Qed.

Lemma doPromiseify_type_mismatch_witness :
  exists st',
    doPromiseify Demo.rl Demo.st0 (VNum 3) None VNull =
      (st', Thrown (ThrowValue (VStr "Cannot promiseify type: number"))) /\
    st_heap st' = Demo.h0 /\
    "number" ∈ ["undefined"; "boolean"; "number"; "string"].
Proof.
  apply (doPromiseify_type_mismatch Demo.rl Demo.st0 (VNum 3) None VNull); reflexivity.
Defined.

(** C5 as the claim has it fails on an array: an array is neither callable
    nor, in the spec's sense, a structured value, and adapting it throws
    nothing; it is returned, with the callable members of its prototype
    adapted onto it. *)
Lemma array_is_adapted_not_refused :
  isFunction Demo.rl Demo.h0 Demo.array = false /\
  isRecord_spec Demo.h0 Demo.array = false /\
  (Promiseify Demo.rl Demo.st0 Demo.array None).2 = Normal Demo.array /\
  (forall e, (Promiseify Demo.rl Demo.st0 Demo.array None).2 <> Thrown e).
Proof.
  assert (Hrun : (Promiseify Demo.rl Demo.st0 Demo.array None).2 = Normal Demo.array)
    by (vm_compute; reflexivity).
  repeat split; try (vm_compute; reflexivity); try exact Hrun.
  intros e He. rewrite Hrun in He. discriminate.
Qed.

(** null takes the same path: typeof null is object. *)
Lemma null_is_returned_not_refused :
  isFunction Demo.rl Demo.h0 VNull = false /\
  isRecord_spec Demo.h0 VNull = false /\
  (Promiseify Demo.rl Demo.st0 VNull None).2 = Normal VNull.
Proof. repeat split; vm_compute; reflexivity. Qed.

(** ** getAllFunctionNames *)

Lemma string_le_iff a b :
  string_le a b <-> a = b \/ OrderedTypeEx.String_as_OT.lt a b.
Proof.
  unfold string_le, String.leb.
  rewrite <- OrderedTypeEx.String_as_OT.cmp_lt.
  unfold OrderedTypeEx.String_as_OT.cmp.
  destruct (String.compare a b) eqn:Hcmp; split; intros Hle; auto; try discriminate.
  - left. by apply String.compare_eq_iff.
  - destruct Hle as [->|Hlt]; [|discriminate].
    pose proof (String.compare_antisym b b) as Hanti.
    rewrite Hcmp in Hanti. discriminate.
Qed.

#[global] Instance string_le_total : Total string_le.
Proof. intros a b. apply String.leb_total. Qed.

#[global] Instance string_le_trans : Transitive string_le.
Proof.
  intros a b c. rewrite !string_le_iff.
  intros [->|Hab] [->|Hbc]; auto.
  right. eapply OrderedTypeEx.String_as_OT.lt_trans; eauto.
Qed.

Lemma elem_of_List_filter {X} (f : X -> bool) (xs : list X) x :
  x ∈ List.filter f xs <-> x ∈ xs /\ f x = true.
Proof. rewrite !list_elem_of_In. apply filter_In. Qed.

Lemma NoDup_List_filter {X} (f : X -> bool) (xs : list X) :
  NoDup xs -> NoDup (List.filter f xs).
Proof. rewrite !NoDup_ListNoDup. apply List.NoDup_filter. Qed.

Lemma includes_true names name : includes names name = true <-> name ∈ names.
Proof. unfold includes. apply bool_decide_eq_true. Qed.

Lemma includes_false names name : includes names name = false <-> name ∉ names.
Proof. unfold includes. apply bool_decide_eq_false. Qed.

Lemma proto_chain_head h l : exists rest, proto_chain h l = l :: rest.
Proof. unfold proto_chain. simpl. eauto. Qed.

(** A name that is the object's own is read from the object itself. *)
Lemma get_own h l name v : own h l name = Some v -> get h l name = v.
Proof.
  intros Hown. unfold get. destruct (proto_chain_head h l) as [rest ->].
  simpl. by rewrite Hown.
Qed.

Lemma elem_of_getOwnPropertyNames h l name :
  name ∈ getOwnPropertyNames h l <-> exists v, own h l name = Some v.
Proof.
  unfold getOwnPropertyNames, own. destruct (h !! l) as [ob|].
  - rewrite list_elem_of_fmap. split.
    + intros [[k v] [-> Hin]]. apply elem_of_map_to_list in Hin. eauto.
    + intros [v Hv]. exists (name, v). split; [reflexivity|].
      by apply elem_of_map_to_list.
  - split; [intros Hin; by apply elem_of_nil in Hin | intros [v Hv]; discriminate].
Qed.

Lemma NoDup_getOwnPropertyNames h l : NoDup (getOwnPropertyNames h l).
Proof.
  unfold getOwnPropertyNames. destruct (h !! l); [apply NoDup_fst_map_to_list|constructor].
Qed.

(** Whatever isFunction accepts is an object, hence truthy: the filter of
    line 62 removes nothing that the filter of line 63 would keep. *)
Lemma isFunction_ref rl h v : isFunction rl h v = true -> exists l, v = VRef l.
Proof. destruct v; try discriminate. eauto. Qed.

Lemma isFunction_truthy rl h v : isFunction rl h v = true -> truthy v = true.
Proof. intros Hf. by destruct (isFunction_ref _ _ _ Hf) as [l ->]. Qed.

Lemma elem_of_collect_level rl h acc a name :
  name ∈ collect_level rl h acc a <-> name ∈ acc \/ contributes rl h a name.
Proof.
  unfold collect_level, contributes.
  rewrite elem_of_app, !elem_of_List_filter, elem_of_getOwnPropertyNames.
  rewrite !negb_true_iff, !includes_false.
  split.
  - intros [Hacc|[[[[[v Hown] Htruthy] Hfun] Hobj] Hnew]]; [by left|right].
    split; [exact Hobj|]. exists v. split; [exact Hown|].
    by rewrite (get_own _ _ _ _ Hown) in Hfun.
  - intros [Hacc|[Hobj [v [Hown Hfun]]]]; [by left|].
    destruct (decide (name ∈ acc)) as [Hin|Hnin]; [by left|right].
    rewrite (get_own _ _ _ _ Hown).
    repeat split; eauto using isFunction_truthy.
Qed.

Lemma NoDup_collect_level rl h acc a :
  NoDup acc -> NoDup (collect_level rl h acc a).
Proof.
  intros Hacc. unfold collect_level. apply NoDup_app. split; [exact Hacc|]. split.
  - intros name Hin Hnew. apply elem_of_List_filter in Hnew as [_ Hnew].
    apply negb_true_iff, includes_false in Hnew. contradiction.
  - repeat apply NoDup_List_filter. apply NoDup_getOwnPropertyNames.
Qed.

Lemma elem_of_collect_chain rl h ls : forall acc name,
  name ∈ foldl (collect_level rl h) acc ls <->
  name ∈ acc \/ exists a, a ∈ ls /\ contributes rl h a name.
Proof.
  induction ls as [|a ls IH]; intros acc name; simpl.
  - split; [by left|]. intros [Hacc|[a [Ha _]]]; [exact Hacc|by apply elem_of_nil in Ha].
  - rewrite IH, elem_of_collect_level. split.
    + intros [[Hacc|Hc]|[b [Hb Hc]]]; [by left| |].
      * right. exists a. split; [left|exact Hc].
      * right. exists b. split; [by right|exact Hc].
    + intros [Hacc|[b [Hb Hc]]]; [by left; left|].
      apply elem_of_cons in Hb as [->|Hb]; [by left; right|].
      right. eauto.
Qed.

Lemma NoDup_collect_chain rl h ls : forall acc,
  NoDup acc -> NoDup (foldl (collect_level rl h) acc ls).
Proof.
  induction ls as [|a ls IH]; intros acc Hacc; simpl; [exact Hacc|].
  apply IH, NoDup_collect_level, Hacc.
Qed.



Example getAllFunctionNames_manager :
  getAllFunctionNames Demo.rl Demo.h0 Demo.manager = ["load"; "save"].
Proof. vm_compute. reflexivity. Qed.

(** ** Heaps only grow *)

Lemma same_shape_refl ob : same_shape ob ob.
Proof. split; [reflexivity|]. destruct (o_kind ob); eauto. Qed.

Lemma same_shape_trans ob1 ob2 ob3 :
  same_shape ob1 ob2 -> same_shape ob2 ob3 -> same_shape ob1 ob3.
Proof.
  intros [Hp1 Hk1] [Hp2 Hk2]. split; [congruence|].
  destruct (o_kind ob1).
  - by rewrite Hk1 in Hk2.
  - by rewrite Hk1 in Hk2.
  - by rewrite Hk1 in Hk2.
  - destruct Hk1 as [s1 [Hk1 Hs1]]. rewrite Hk1 in Hk2.
    destruct Hk2 as [s2 [Hk2 Hs2]]. exists s2. split; [exact Hk2|].
    intros Hs. rewrite Hs2; [by apply Hs1|]. by rewrite (Hs1 Hs).
Qed.

Lemma extends_refl h : extends h h.
Proof. intros l ob Hl. eauto using same_shape_refl. Qed.

Lemma extends_trans h1 h2 h3 : extends h1 h2 -> extends h2 h3 -> extends h1 h3.
Proof.
  intros H12 H23 l ob Hl.
  destruct (H12 _ _ Hl) as [ob2 [Hl2 Hs2]].
  destruct (H23 _ _ Hl2) as [ob3 [Hl3 Hs3]].
  eauto using same_shape_trans.
Qed.

Lemma extends_length h h' : extends h h' -> length h <= length h'.
Proof.
  intros Hext. destruct (decide (length h <= length h')) as [|Hlt]; [done|].
  destruct (lookup_lt_is_Some_2 h (length h')) as [ob Hob]; [lia|].
  destruct (Hext _ _ Hob) as [ob' [Hob' _]].
  apply lookup_lt_Some in Hob'. lia.
Qed.

Lemma extends_alloc h ob : extends h (h ++ [ob]).
Proof.
  intros l ob0 Hl. exists ob0. split; [|apply same_shape_refl].
  by apply lookup_app_l_Some.
Qed.

Lemma extends_insert h l ob ob' :
  h !! l = Some ob -> same_shape ob ob' -> extends h (<[l := ob']> h).
Proof.
  intros Hl Hs l0 ob0 Hl0. destruct (decide (l0 = l)) as [->|Hne].
  - exists ob'. rewrite list_lookup_insert_eq by (by eapply lookup_lt_Some).
    split; [reflexivity|]. congruence.
  - exists ob0. rewrite list_lookup_insert_ne by done. eauto using same_shape_refl.
Qed.

Lemma extends_set_prop h l name v : extends h (set_prop h l name v).
Proof.
  unfold set_prop. destruct (h !! l) as [ob|] eqn:Hl; [|apply extends_refl].
  eapply extends_insert; [exact Hl|]. split; [reflexivity|]. simpl.
  destruct (o_kind ob); eauto.
Qed.

Lemma extends_settle h p s : extends h (settle h p s).
Proof.
  unfold settle. destruct (h !! p) as [ob|] eqn:Hp; [|apply extends_refl].
  destruct (o_kind ob) as [| |c|[]] eqn:Hk; try apply extends_refl.
  eapply extends_insert; [exact Hp|]. split; [reflexivity|]. rewrite Hk. simpl.
  exists s. split; [reflexivity|]. intros Hne. by destruct Hne.
Qed.

Lemma getPrototypeOf_extends h h' l :
  extends h h' -> l < length h -> getPrototypeOf h' l = getPrototypeOf h l.
Proof.
  intros Hext Hl. unfold getPrototypeOf.
  destruct (lookup_lt_is_Some_2 h l Hl) as [ob Hob].
  destruct (Hext _ _ Hob) as [ob' [Hob' [Hproto _]]].
  by rewrite Hob, Hob', Hproto.
Qed.

Lemma getPrototypeOf_lt h l p : getPrototypeOf h l = Some p -> p < l.
Proof.
  unfold getPrototypeOf. destruct (h !! l) as [ob|]; [|discriminate].
  destruct (o_proto ob) as [q|]; [|discriminate].
  destruct (decide (q < l)); [|discriminate]. by intros [= <-].
Qed.

Lemma chain_from_extends h h' n : forall l,
  extends h h' -> l < length h -> chain_from h' n l = chain_from h n l.
Proof.
  induction n as [|n IH]; intros l Hext Hl; simpl; [reflexivity|].
  rewrite (getPrototypeOf_extends h h' l Hext Hl).
  destruct (getPrototypeOf h l) as [q|] eqn:Hq; [|reflexivity].
  apply getPrototypeOf_lt in Hq. rewrite IH; [reflexivity|exact Hext|lia].
Qed.

Lemma proto_chain_extends h h' l :
  extends h h' -> l < length h -> proto_chain h' l = proto_chain h l.
Proof. apply chain_from_extends. Qed.

(** Beyond its head, a chain only holds older objects. *)
Lemma chain_from_tail_lt h n : forall l a,
  a ∈ tail (chain_from h n l) -> a < l.
Proof.
  induction n as [|n IH]; intros l a; simpl; [intros Ha; by apply elem_of_nil in Ha|].
  destruct (getPrototypeOf h l) as [q|] eqn:Hq; [|intros Ha; by apply elem_of_nil in Ha].
  apply getPrototypeOf_lt in Hq. destruct n as [|n]; simpl.
  { intros Ha; by apply elem_of_nil in Ha. }
  intros Ha. apply elem_of_cons in Ha as [->|Ha]; [exact Hq|].
  specialize (IH q a). simpl in IH. specialize (IH Ha). lia.
Qed.

Lemma proto_chain_le h l a : a ∈ proto_chain h l -> a <= l.
Proof.
  destruct (proto_chain_head h l) as [rest Hrest]. rewrite Hrest.
  intros Ha. apply elem_of_cons in Ha as [->|Ha]; [lia|].
  assert (a ∈ tail (proto_chain h l)) as Htl by (by rewrite Hrest).
  apply chain_from_tail_lt in Htl. lia.
Qed.

Lemma valid_lt h l : valid h (VRef l) = true <-> l < length h.
Proof. simpl. apply bool_decide_eq_true. Qed.

Lemma getType_extends h h' v :
  extends h h' -> valid h v = true -> getType h' v = getType h v.
Proof.
  intros Hext Hv. destruct v as [| | | | | |l]; try reflexivity.
  apply valid_lt in Hv. simpl.
  destruct (lookup_lt_is_Some_2 h l Hv) as [ob Hob].
  destruct (Hext _ _ Hob) as [ob' [Hob' [_ Hkind]]].
  rewrite Hob, Hob'. destruct (o_kind ob) as [| |c|s0].
  - by rewrite Hkind.
  - by rewrite Hkind.
  - by rewrite Hkind.
  - destruct Hkind as [s1 [-> _]]. reflexivity.
Qed.

Lemma isFunction_extends rl h h' v :
  extends h h' -> valid h v = true -> isFunction rl h' v = isFunction rl h v.
Proof.
  intros Hext Hv. unfold isFunction. rewrite (getType_extends h h' v Hext Hv).
  f_equal. destruct v as [| | | | | |l]; try reflexivity.
  apply valid_lt in Hv. unfold instanceofFunction.
  by rewrite (proto_chain_extends h h' l Hext Hv).
Qed.

Lemma isObject_extends h h' v :
  extends h h' -> valid h v = true -> isObject h' v = isObject h v.
Proof. intros Hext Hv. unfold isObject. by rewrite (getType_extends h h' v Hext Hv). Qed.

Lemma code_of_extends h h' f c :
  extends h h' -> code_of h f = Some c -> code_of h' f = Some c.
Proof.
  intros Hext. destruct f as [| | | | | |l]; try discriminate. simpl.
  destruct (h !! l) as [ob|] eqn:Hob; [|discriminate].
  destruct (Hext _ _ Hob) as [ob' [Hob' [_ Hkind]]]. rewrite Hob'.
  destruct (o_kind ob) as [| |c0|s0]; try discriminate.
  intros [= <-]. by rewrite Hkind.
Qed.

(** What isFunction accepts is in the heap. *)
Lemma isFunction_valid rl h v : isFunction rl h v = true -> valid h v = true.
Proof.
  intros Hf. destruct (isFunction_ref _ _ _ Hf) as [l ->].
  apply valid_lt. destruct (decide (l < length h)) as [|Hge]; [done|].
  assert (Hnone : h !! l = None) by (apply lookup_ge_None_2; lia).
  unfold isFunction, instanceofFunction, proto_chain, chain_from, getPrototypeOf, getType in Hf.
  rewrite Hnone in Hf. simpl in Hf. discriminate.
Qed.

(** ** Adapting the members of an object *)

Lemma own_alloc h ob l name : l < length h -> own (h ++ [ob]) l name = own h l name.
Proof. intros Hl. unfold own. by rewrite lookup_app_l. Qed.

Lemma lookup_set_prop_ne h l l' name v : l' <> l -> set_prop h l name v !! l' = h !! l'.
Proof.
  intros Hne. unfold set_prop. destruct (h !! l); [|reflexivity].
  by rewrite list_lookup_insert_ne.
Qed.

Lemma own_set_prop_eq h l name v :
  l < length h -> own (set_prop h l name v) l name = Some v.
Proof.
  intros Hl. unfold own, set_prop.
  destruct (lookup_lt_is_Some_2 h l Hl) as [ob Hob]. rewrite Hob.
  rewrite list_lookup_insert_eq by done. simpl. apply lookup_insert_eq.
Qed.

Lemma own_set_prop_ne h l name name' v :
  name' <> name -> own (set_prop h l name v) l name' = own h l name'.
Proof.
  intros Hne. unfold own, set_prop. destruct (h !! l) as [ob|] eqn:Hob; [|by rewrite Hob].
  rewrite list_lookup_insert_eq by (by eapply lookup_lt_Some). simpl.
  by rewrite lookup_insert_ne.
Qed.

Lemma lookup_chain_frame h h' ls name :
  (forall a, a ∈ ls -> own h' a name = own h a name) ->
  lookup_chain h' ls name = lookup_chain h ls name.
Proof.
  induction ls as [|a ls IH]; intros Hown; simpl; [reflexivity|].
  rewrite (Hown a) by left. destruct (own h a name); [reflexivity|].
  apply IH. intros b Hb. apply Hown. by right.
Qed.

Lemma get_frame h h' l name :
  extends h h' -> l < length h ->
  (forall a, a <= l -> own h' a name = own h a name) ->
  get h' l name = get h l name.
Proof.
  intros Hext Hl Hown. unfold get. rewrite (proto_chain_extends h h' l Hext Hl).
  apply lookup_chain_frame. intros a Ha. apply Hown. by apply proto_chain_le in Ha.
Qed.

Lemma promiseify_loop_callable rl st l o name rest :
  isFunction rl (st_heap st) (get (st_heap st) l name) = true ->
  promiseify_loop rl st (VRef l) o (name :: rest) =
  promiseify_loop rl (with_heap st (wrapped_heap rl (st_heap st) l o name)) (VRef l) o rest.
Proof. intros Hf. simpl. rewrite Hf. reflexivity. Qed.

Lemma promiseify_loop_skip rl st l o name rest :
  isFunction rl (st_heap st) (get (st_heap st) l name) = false ->
  promiseify_loop rl st (VRef l) o (name :: rest) = promiseify_loop rl st (VRef l) o rest.
Proof. intros Hf. simpl. rewrite Hf. reflexivity. Qed.

Section Wrapped.
Context (rl : realm) (h : list object) (l o : nat) (name : string).
Hypothesis Hl : l < length h.

Lemma wrapped_heap_extends : extends h (wrapped_heap rl h l o name).
Proof.
  unfold wrapped_heap. eapply extends_trans; [apply extends_alloc|apply extends_set_prop].
Qed.

Lemma wrapped_heap_other l' :
  l' <> l -> l' < length h -> wrapped_heap rl h l o name !! l' = h !! l'.
Proof.
  intros Hne Hl'. unfold wrapped_heap. rewrite lookup_set_prop_ne by done.
  by rewrite lookup_app_l.
Qed.

Lemma wrapped_heap_member :
  own (wrapped_heap rl h l o name) l name = Some (VRef (length h)).
Proof. unfold wrapped_heap. apply own_set_prop_eq. rewrite length_app. lia. Qed.

Lemma wrapped_heap_own_ne name' :
  name' <> name -> own (wrapped_heap rl h l o name) l name' = own h l name'.
Proof.
  intros Hne. unfold wrapped_heap. rewrite own_set_prop_ne by done. by apply own_alloc.
Qed.

Lemma wrapped_heap_wrapper :
  code_of (wrapped_heap rl h l o name) (VRef (length h)) =
    Some (Promiseified (get h l name) o (VRef l)).
Proof.
  unfold wrapped_heap. simpl. rewrite lookup_set_prop_ne by lia.
  rewrite lookup_app_r by lia. by rewrite Nat.sub_diag.
Qed.

Lemma wrapped_heap_own_below a name' :
  a < l -> own (wrapped_heap rl h l o name) a name' = own h a name'.
Proof. intros Ha. unfold own. rewrite wrapped_heap_other by lia. reflexivity. Qed.

Lemma wrapped_heap_get_ne name' :
  name' <> name -> get (wrapped_heap rl h l o name) l name' = get h l name'.
Proof.
  intros Hne. apply get_frame; [apply wrapped_heap_extends|exact Hl|].
  intros a Ha. destruct (decide (a = l)) as [->|Hal].
  - by apply wrapped_heap_own_ne.
  - apply wrapped_heap_own_below. lia.
Qed.

Lemma wrapped_heap_get :
  get (wrapped_heap rl h l o name) l name = VRef (length h).
Proof. apply get_own, wrapped_heap_member. Qed.

Lemma wrapped_heap_length : length (wrapped_heap rl h l o name) = S (length h).
Proof.
  unfold wrapped_heap, set_prop.
  destruct (_ !! l); rewrite ?length_insert, length_app; simpl; lia.
Qed.
End Wrapped.

Lemma valid_mono h h' v : length h <= length h' -> valid h v = true -> valid h' v = true.
Proof.
  destruct v; try done. rewrite !valid_lt. lia.
Qed.

(** The loop of lines 267-271 on an object: it ends without throwing, and
    touches nothing but the target's own members that are callable. *)
Lemma promiseify_loop_frame rl o l names : forall st,
  l < length (st_heap st) ->
  (forall name, valid (st_heap st) (get (st_heap st) l name) = true) ->
  exists st',
    promiseify_loop rl st (VRef l) o names = (st', Normal tt) /\
    st_opts st' = st_opts st /\ st_trace st' = st_trace st /\
    extends (st_heap st) (st_heap st') /\
    (forall l', l' <> l -> l' < length (st_heap st) ->
                st_heap st' !! l' = st_heap st !! l') /\
    (forall name, isFunction rl (st_heap st) (get (st_heap st) l name) = false ->
                  own (st_heap st') l name = own (st_heap st) l name).
Proof.
  induction names as [|name rest IH]; intros st Hl Hvalid.
  - exists st. simpl. repeat split; auto using extends_refl.
  - destruct (isFunction rl (st_heap st) (get (st_heap st) l name)) eqn:Hf.
    + rewrite promiseify_loop_callable by exact Hf.
      set (h := st_heap st) in *. set (h2 := wrapped_heap rl h l o name).
      assert (Hext : extends h h2) by (apply wrapped_heap_extends; done).
      assert (Hlen : length h2 = S (length h)) by (apply wrapped_heap_length; done).
      destruct (IH (with_heap st h2)) as (st' & Hrun & Hopts & Htrace & Hext' & Hother & Hskip).
      { simpl. lia. }
      { intros name'. simpl. destruct (decide (name' = name)) as [->|Hne].
        - unfold h2. rewrite wrapped_heap_get by exact Hl. apply valid_lt.
          rewrite wrapped_heap_length by done. lia.
        - unfold h2. rewrite wrapped_heap_get_ne by done.
          eapply valid_mono; [|apply Hvalid]. rewrite wrapped_heap_length by done.
          fold h. lia. }
      exists st'. simpl in *. split; [exact Hrun|]. split; [exact Hopts|].
      split; [exact Htrace|]. split; [eauto using extends_trans|]. split.
      * intros l' Hne Hl'. rewrite Hother by (auto; lia).
        by apply wrapped_heap_other.
      * intros name' Hf'.
        assert (Hne : name' <> name) by (intros ->; congruence).
        rewrite Hskip.
        -- by apply wrapped_heap_own_ne.
        -- unfold h2. rewrite wrapped_heap_get_ne by done.
           rewrite (isFunction_extends rl h (wrapped_heap rl h l o name)); auto.
    + rewrite promiseify_loop_skip by exact Hf. apply IH; assumption.
Qed.

Lemma heap_closed_own h l name v :
  heap_closed h = true -> own h l name = Some v -> valid h v = true.
Proof.
  unfold heap_closed, own. rewrite forallb_forall. intros Hclosed Hown.
  destruct (h !! l) as [ob|] eqn:Hob; [|discriminate].
  assert (Hin : In ob h) by (apply list_elem_of_In; eapply list_elem_of_lookup_2; eauto).
  specialize (Hclosed ob Hin). rewrite forallb_forall in Hclosed.
  apply (Hclosed (name, v)). apply list_elem_of_In. by apply elem_of_map_to_list.
Qed.

Lemma lookup_chain_valid h ls name :
  heap_closed h = true -> valid h (lookup_chain h ls name) = true.
Proof.
  intros Hclosed. induction ls as [|a ls IH]; simpl; [reflexivity|].
  destruct (own h a name) as [v|] eqn:Hown; [|exact IH].
  eapply heap_closed_own; eauto.
Qed.

Lemma get_valid h l name : heap_closed h = true -> valid h (get h l name) = true.
Proof. intros Hclosed. apply lookup_chain_valid, Hclosed. Qed.

(** doPromiseify on an object when only is set: the loop runs over the
    list as given. *)
Lemma doPromiseify_only rl st l o op names context :
  st_opts st !! o = Some op -> only op = Some names ->
  isFunction rl (st_heap st) (VRef l) = false ->
  isObject (st_heap st) (VRef l) = true ->
  doPromiseify rl st (VRef l) (Some o) context =
    match promiseify_loop rl st (VRef l) o names with
    | (st1, Thrown e) => (st1, Thrown e)
    | (st1, Normal _) => (st1, Normal (VRef l))
    end.
Proof.
  intros Hop Honly Hfun Hobj. unfold doPromiseify. simpl normalize_options. cbv iota beta.
  rewrite Hfun, Hobj, Hop. simpl. rewrite Honly. reflexivity.
Qed.

(** C7: adapting a structured object that has a callable save member with
    only: ['save'] returns the object itself; its save member is then a
    function that did not exist before, the adaptation of the former save
    bound to the object, and every other member of the object, own or
    inherited, and every other object of the heap is as it was. *)
Theorem only_save_frame rl st l o op context :
  st_opts st !! o = Some op -> only op = Some ["save"] ->
  isFunction rl (st_heap st) (VRef l) = false ->
  isObject (st_heap st) (VRef l) = true ->
  isFunction rl (st_heap st) (get (st_heap st) l "save") = true ->
  exists st' w,
    doPromiseify rl st (VRef l) (Some o) context = (st', Normal (VRef l)) /\
    st_heap st !! w = None /\
    get (st_heap st') l "save" = VRef w /\
    VRef w <> get (st_heap st) l "save" /\
    code_of (st_heap st') (VRef w) =
      Some (Promiseified (get (st_heap st) l "save") o (VRef l)) /\
    (forall name, name <> "save" ->
       get (st_heap st') l name = get (st_heap st) l name /\
       own (st_heap st') l name = own (st_heap st) l name) /\
    (forall l', l' <> l -> l' < length (st_heap st) ->
       st_heap st' !! l' = st_heap st !! l').
Proof.
  intros Hop Honly Hfun Hobj Hsave.
  assert (Hl : l < length (st_heap st)).
  { destruct (decide (l < length (st_heap st))) as [|Hge]; [done|].
    assert (Hnone : st_heap st !! l = None) by (apply lookup_ge_None_2; lia).
    unfold get, proto_chain, chain_from, getPrototypeOf in Hsave.
    rewrite Hnone in Hsave. simpl in Hsave. unfold own in Hsave.
    rewrite Hnone in Hsave. discriminate. }
  rewrite (doPromiseify_only rl st l o op ["save"]) by assumption.
  rewrite promiseify_loop_callable by exact Hsave.
  simpl promiseify_loop. cbv iota beta.
  exists (with_heap st (wrapped_heap rl (st_heap st) l o "save")), (length (st_heap st)).
  simpl. split; [reflexivity|]. split; [by apply lookup_ge_None_2|].
  split; [by apply wrapped_heap_get|]. split.
  { intros Heq. pose proof (isFunction_valid _ _ _ Hsave) as Hv.
    rewrite <- Heq in Hv. apply valid_lt in Hv. lia. }
  split; [by apply wrapped_heap_wrapper|]. split.
  - intros name Hne. split; [by apply wrapped_heap_get_ne|by apply wrapped_heap_own_ne].
  - intros l' Hne Hl'. by apply wrapped_heap_other.
Qed.

Lemma only_save_frame_witness :
  exists st' w,
    doPromiseify Demo.rl Demo.st_only Demo.manager (Some 0) VNull = (st', Normal Demo.manager) /\
    Demo.h0 !! w = None /\
    get (st_heap st') 8 "save" = VRef w /\
    VRef w <> get Demo.h0 8 "save" /\
    code_of (st_heap st') (VRef w) =
      Some (Promiseified (get Demo.h0 8 "save") 0 Demo.manager) /\
    (forall name, name <> "save" ->
       get (st_heap st') 8 name = get Demo.h0 8 name /\
       own (st_heap st') 8 name = own Demo.h0 8 name) /\
    (forall l', l' <> 8 -> l' < length Demo.h0 ->
       st_heap st' !! l' = Demo.h0 !! l').
Proof.
  apply (only_save_frame Demo.rl Demo.st_only 8 0
           (Options (Some ["save"]) None None VUndefined) VNull);
    vm_compute; reflexivity.
Defined.

(** C10: when only is set, the list is taken as it is and each name is
    tested again before it is wrapped: adaptation of an object ends without
    an error and returns the object, and every name that does not resolve to
    a callable member, listed in only or not, keeps its value and its own
    property as they were. *)
Theorem only_skips_non_callable rl st l o op names context :
  st_opts st !! o = Some op -> only op = Some names ->
  isFunction rl (st_heap st) (VRef l) = false ->
  isObject (st_heap st) (VRef l) = true ->
  l < length (st_heap st) ->
  heap_closed (st_heap st) = true ->
  exists st',
    doPromiseify rl st (VRef l) (Some o) context = (st', Normal (VRef l)) /\
    forall name,
      isFunction rl (st_heap st) (get (st_heap st) l name) = false ->
      get (st_heap st') l name = get (st_heap st) l name /\
      own (st_heap st') l name = own (st_heap st) l name.
Proof.
  intros Hop Honly Hfun Hobj Hl Hclosed.
  rewrite (doPromiseify_only rl st l o op names) by assumption.
  destruct (promiseify_loop_frame rl o l names st Hl)
    as (st' & Hrun & _ & _ & Hext & Hother & Hskip).
  { intros name. by apply get_valid. }
  rewrite Hrun. exists st'. split; [reflexivity|].
  intros name Hf. split; [|by apply Hskip].
  apply get_frame; [exact Hext|exact Hl|].
  intros a Ha. destruct (decide (a = l)) as [->|Hne]; [by apply Hskip|].
  unfold own. rewrite Hother by (auto; lia). reflexivity.
Qed.

Lemma only_skips_non_callable_witness :
  exists st',
    doPromiseify Demo.rl Demo.st_mixed Demo.manager (Some 0) VNull =
      (st', Normal Demo.manager) /\
    forall name,
      isFunction Demo.rl Demo.h0 (get Demo.h0 8 name) = false ->
      get (st_heap st') 8 name = get Demo.h0 8 name /\
      own (st_heap st') 8 name = own Demo.h0 8 name.
Proof.
  apply (only_skips_non_callable Demo.rl Demo.st_mixed 8 0
           (Options (Some ["version"; "missing"; "load"]) None None VUndefined)
           ["version"; "missing"; "load"] VNull);
    first [ reflexivity | simpl; lia | vm_compute; reflexivity ].
Defined.

Example only_mixed_run :
  let st' := (doPromiseify Demo.rl Demo.st_mixed Demo.manager (Some 0) VNull).1 in
  own (st_heap st') 8 "version" = Some (VNum 3) /\
  own (st_heap st') 8 "missing" = None /\
  own (st_heap st') 8 "load" = Some (VRef 16).
Proof. vm_compute. repeat split. Qed.

(** ** Steps that run handlers *)

Lemma promise_state_extends_none h h' l :
  extends h h' -> l < length h -> promise_state h l = None -> promise_state h' l = None.
Proof.
  intros Hext Hl. unfold promise_state.
  destruct (lookup_lt_is_Some_2 h l Hl) as [ob Hob].
  destruct (Hext _ _ Hob) as [ob' [Hob' [_ Hkind]]]. rewrite Hob, Hob'.
  destruct (o_kind ob); try discriminate; by rewrite Hkind.
Qed.

(** A settled promise stays as it is. *)
Lemma promise_state_extends_settled h h' p s :
  extends h h' -> promise_state h p = Some s -> s <> Pending ->
  promise_state h' p = Some s.
Proof.
  intros Hext. unfold promise_state. destruct (h !! p) as [ob|] eqn:Hob; [|discriminate].
  destruct (Hext _ _ Hob) as [ob' [Hob' [_ Hkind]]]. rewrite Hob'.
  destruct (o_kind ob); try discriminate. intros [= ->] Hs.
  destruct Hkind as [s' [-> Hs']]. by rewrite Hs'.
Qed.


Lemma evolves_refl st : evolves st st.
Proof.
  split; [apply extends_refl|]. split.
  - intros l Hl. unfold promise_state. by rewrite lookup_ge_None_2.
  - exists []. by rewrite app_nil_r.
Qed.

Lemma evolves_trans st1 st2 st3 : evolves st1 st2 -> evolves st2 st3 -> evolves st1 st3.
Proof.
  intros (Hext12 & Hnew12 & evs12 & Htr12 & Hno12) (Hext23 & Hnew23 & evs23 & Htr23 & Hno23).
  split; [eauto using extends_trans|]. split.
  - intros l Hl. destruct (decide (l < length (st_heap st2))) as [Hlt|Hge].
    + eapply promise_state_extends_none; eauto.
    + apply Hnew23. lia.
  - exists (evs12 ++ evs23). rewrite Htr23, Htr12, <- app_assoc. split; [reflexivity|].
    rewrite forallb_app, Hno12, Hno23. reflexivity.
Qed.

(** A step that only touches the heap and the option records. *)
Lemma evolves_heap st h' opts' :
  extends (st_heap st) h' ->
  (forall l, length (st_heap st) <= l -> promise_state h' l = None) ->
  evolves st (State h' opts' (st_trace st)).
Proof.
  intros Hext Hnew. split; [exact Hext|]. split; [exact Hnew|].
  exists []. by rewrite app_nil_r.
Qed.

Lemma promise_state_alloc_other h ob l :
  (forall s, o_kind ob <> KPromise s) -> length h <= l ->
  promise_state (h ++ [ob]) l = None.
Proof.
  intros Hkind Hl. unfold promise_state.
  destruct (decide (l = length h)) as [->|Hne].
  - rewrite lookup_app_r by lia. rewrite Nat.sub_diag. simpl.
    destruct (o_kind ob) eqn:Hk; try reflexivity. by destruct (Hkind s).
  - rewrite lookup_ge_None_2; [reflexivity|]. rewrite length_app. simpl. lia.
Qed.

Lemma evolves_alloc st ob opts' :
  (forall s, o_kind ob <> KPromise s) ->
  evolves st (State (st_heap st ++ [ob]) opts' (st_trace st)).
Proof.
  intros Hkind. apply evolves_heap; [apply extends_alloc|].
  intros l Hl. by apply promise_state_alloc_other.
Qed.

Lemma evolves_log st e : is_original e = false -> evolves st (log st e).
Proof.
  intros He. split; [apply extends_refl|]. split.
  - intros l Hl. unfold promise_state. simpl. by rewrite lookup_ge_None_2.
  - exists [e]. simpl. by rewrite He.
Qed.

Lemma settle_length h p s : length (settle h p s) = length h.
Proof.
  unfold settle. destruct (h !! p) as [ob|]; [|reflexivity].
  destruct (o_kind ob) as [| | |[]]; try reflexivity. apply length_insert.
Qed.

Lemma evolves_settle st p s : evolves st (with_heap st (settle (st_heap st) p s)).
Proof.
  apply evolves_heap; [apply extends_settle|].
  intros l Hl. unfold promise_state. rewrite lookup_ge_None_2; [reflexivity|].
  rewrite settle_length. lia.
Qed.

Lemma execute_evolves rl st site fn args context :
  (forall f a, is_original (site f a) = false) ->
  evolves st (execute rl st site fn args context).1.
Proof.
  intros Hsite. unfold execute.
  destruct (isFunction rl (st_heap st) fn); [|apply evolves_refl].
  destruct (truthy context); simpl.
  - by apply evolves_log.
  - eapply evolves_trans; [|by apply evolves_log].
    apply (evolves_alloc st _ (st_opts st)). discriminate.
Qed.

Lemma executeSuccess_evolves rl st p fn args :
  evolves st (executeSuccess rl st p fn args).1.
Proof.
  unfold executeSuccess.
  pose proof (execute_evolves rl st EHandler fn args VUndefined (fun _ _ => eq_refl)) as Hex.
  destruct (execute rl st EHandler fn args VUndefined) as [st1 [r|e]]; simpl in *; [|exact Hex].
  eapply evolves_trans; [exact Hex|apply evolves_settle].
Qed.

Lemma executeFailure_evolves rl st p fn args :
  evolves st (executeFailure rl st p fn args).1.
Proof.
  unfold executeFailure.
  pose proof (execute_evolves rl st EHandler fn args VUndefined (fun _ _ => eq_refl)) as Hex.
  destruct (execute rl st EHandler fn args VUndefined) as [st1 [r|e]]; simpl in *; [|exact Hex].
  eapply evolves_trans; [exact Hex|apply evolves_settle].
Qed.

Lemma ensure_redirector_evolves rl st o s : evolves st (ensure_redirector rl st o s).
Proof.
  unfold ensure_redirector. destruct (st_opts st !! o) as [op|]; [|apply evolves_refl].
  destruct (truthy (outcomeRedirector op)); [apply evolves_refl|].
  simpl. apply evolves_alloc. discriminate.
Qed.

Lemma fire_evolves rl st s p o sH fH R : evolves st (fire rl st s p o sH fH R).1.
Proof.
  unfold fire.
  pose proof (ensure_redirector_evolves rl st o s) as H1.
  set (st1 := ensure_redirector rl st o s) in *.
  set (redirector := outcomeRedirector (default empty_options (st_opts st1 !! o))).
  pose proof (execute_evolves rl st1 ERedirector redirector R VUndefined
                (fun _ _ => eq_refl)) as H2.
  destruct (execute rl st1 ERedirector redirector R VUndefined) as [st2 [v|e]]; simpl in *.
  - destruct (truthy v).
    + eapply evolves_trans; [exact H1|]. eapply evolves_trans; [exact H2|].
      apply executeSuccess_evolves.
    + eapply evolves_trans; [exact H1|]. eapply evolves_trans; [exact H2|].
      apply executeFailure_evolves.
  - eauto using evolves_trans.
Qed.

Lemma call_value_evolves rl st f R : evolves st (call_value rl st f R).1.
Proof.
  unfold call_value. destruct (code_of (st_heap st) f) as [[]|]; simpl;
    try apply evolves_refl. apply fire_evolves.
Qed.

Lemma run_body_evolves rl b : forall st, evolves st (run_body rl st b).1.
Proof.
  induction b as [v|e|f R caught k IH]; intros st; simpl; try apply evolves_refl.
  pose proof (call_value_evolves rl st f R) as Hcall.
  destruct (call_value rl st f R) as [st1 [u|e]]; simpl in *.
  - eapply evolves_trans; [exact Hcall|apply IH].
  - destruct caught; [|exact Hcall].
    eapply evolves_trans; [exact Hcall|apply IH].
Qed.

(** ** One call of an adapted function *)

Lemma call_promiseified_unfold rl st target o context A :
  let h := st_heap st in
  let sep := separate rl h A in
  call_promiseified rl st target o context A =
    match apply_target rl (with_heap st (entry_heap rl h o sep)) target context
                       (entry_args h sep) with
    | (st1, Thrown e) =>
        (with_heap st1 (settle (st_heap st1) (length h) (Rejected (PExn e))),
         Normal (VRef (length h)))
    | (st1, Normal _) => (st1, Normal (VRef (length h)))
    end.
Proof.
  intros h sep. unfold call_promiseified, alloc, entry_heap, entry_args,
    promise_object, injected_object.
  fold h. fold sep. rewrite !length_app. simpl length.
  replace (length h + 1) with (S (length h)) by lia.
  replace (S (length h) + 1) with (S (S (length h))) by lia.
  rewrite <- !app_assoc. simpl. reflexivity.
Qed.

Lemma code_of_isFunction rl h f c : code_of h f = Some c -> isFunction rl h f = true.
Proof.
  destruct f as [| | | | | |l]; try discriminate. unfold isFunction. simpl.
  destruct (h !! l) as [ob|]; [|discriminate].
  destruct (o_kind ob); try discriminate. reflexivity.
Qed.

Lemma entry_heap_extends rl h o sep : extends h (entry_heap rl h o sep).
Proof.
  intros l ob Hl. exists ob. split; [|apply same_shape_refl].
  unfold entry_heap. by apply lookup_app_l_Some.
Qed.

Lemma entry_heap_promise rl h o sep :
  promise_state (entry_heap rl h o sep) (length h) = Some Pending.
Proof.
  unfold promise_state, entry_heap. rewrite lookup_app_r by lia.
  by rewrite Nat.sub_diag.
Qed.

Lemma entry_heap_onSuccess rl h o sep :
  code_of (entry_heap rl h o sep) (VRef (S (length h))) =
    Some (Injected OnSuccess (length h) o (successHandler sep) (failureHandler sep)).
Proof.
  unfold entry_heap. simpl. rewrite lookup_app_r by lia.
  replace (S (length h) - length h) with 1 by lia. reflexivity.
Qed.

Lemma entry_heap_onError rl h o sep :
  code_of (entry_heap rl h o sep) (VRef (S (S (length h)))) =
    Some (Injected OnError (length h) o (successHandler sep) (failureHandler sep)).
Proof.
  unfold entry_heap. simpl. rewrite lookup_app_r by lia.
  replace (S (S (length h)) - length h) with 2 by lia. reflexivity.
Qed.

Lemma entry_heap_length rl h o sep : length (entry_heap rl h o sep) = length h + 3.
Proof. unfold entry_heap. rewrite length_app. reflexivity. Qed.


(** Line 235: once the original is entered, what follows runs handlers
    only. *)
Lemma apply_target_evolves rl st target context args c :
  code_of (st_heap st) target = Some c ->
  evolves (log st (EOriginal target context args))
          (apply_target rl st target context args).1.
Proof.
  intros Hc. unfold apply_target. rewrite Hc.
  destruct c; simpl; try apply evolves_refl. apply run_body_evolves.
Qed.




(** ** Settlement *)

Lemma promise_state_settle h p s :
  promise_state (settle h p s) p =
    match promise_state h p with
    | Some Pending => Some s
    | other => other
    end.
Proof.
  unfold promise_state, settle. destruct (h !! p) as [ob|] eqn:Hob; [|by rewrite Hob].
  destruct (o_kind ob) as [| |c|[]] eqn:Hk; rewrite ?Hob, ?Hk; try reflexivity.
  rewrite list_lookup_insert_eq by (by eapply lookup_lt_Some). reflexivity.
Qed.

Lemma promise_state_settle_other h p q s :
  q <> p -> promise_state (settle h p s) q = promise_state h q.
Proof.
  intros Hne. unfold promise_state, settle. destruct (h !! p) as [ob|]; [|reflexivity].
  destruct (o_kind ob) as [| |c|[]]; try reflexivity.
  by rewrite list_lookup_insert_ne.
Qed.

(** C4, as the code has it: when the original throws e during the call,
    the call itself returns normally, with the promise it created, and
    nothing is thrown to the caller; rejecting that promise with e is the
    last thing done to it, so that it is rejected with e unless an injected
    handler had settled it before the throw, in which case it stays as the
    handler left it. *)
Theorem sync_throw_rejects rl st target o context A st1 e :
  let h := st_heap st in
  let sep := separate rl h A in
  apply_target rl (with_heap st (entry_heap rl h o sep)) target context (entry_args h sep)
    = (st1, Thrown e) ->
  exists st',
    call_promiseified rl st target o context A = (st', Normal (VRef (length h))) /\
    h !! length h = None /\
    st_heap st' = settle (st_heap st1) (length h) (Rejected (PExn e)) /\
    promise_state (st_heap st') (length h) =
      match promise_state (st_heap st1) (length h) with
      | Some Pending => Some (Rejected (PExn e))
      | other => other
      end.
Proof.
  intros h sep Hthrow. rewrite call_promiseified_unfold. fold h. fold sep.
  rewrite Hthrow. eexists. split; [reflexivity|]. simpl.
  split; [by apply lookup_ge_None_2|]. split; [reflexivity|].
  apply promise_state_settle.
Qed.

Lemma sync_throw_rejects_witness :
  exists st',
    call_promiseified Demo.rl Demo.st_plain (VRef 11) 0 VNull [VNum 1] = (st', Normal (VRef 16)) /\
    Demo.h0 !! 16 = None /\
    st_heap st' =
      settle (st_heap (apply_target Demo.rl
                         (with_heap Demo.st_plain
                            (entry_heap Demo.rl Demo.h0 0 (separate Demo.rl Demo.h0 [VNum 1])))
                         (VRef 11) VNull
                         (entry_args Demo.h0 (separate Demo.rl Demo.h0 [VNum 1]))).1)
             16 (Rejected (PExn (ThrowValue (VStr "boom")))) /\
    promise_state (st_heap st') 16 =
      match promise_state
              (st_heap (apply_target Demo.rl
                          (with_heap Demo.st_plain
                             (entry_heap Demo.rl Demo.h0 0 (separate Demo.rl Demo.h0 [VNum 1])))
                          (VRef 11) VNull
                          (entry_args Demo.h0 (separate Demo.rl Demo.h0 [VNum 1]))).1) 16 with
      | Some Pending => Some (Rejected (PExn (ThrowValue (VStr "boom"))))
      | other => other
      end.
Proof.
  apply (sync_throw_rejects Demo.rl Demo.st_plain (VRef 11) 0 VNull [VNum 1]).
  vm_compute. reflexivity.
Defined.

(** An original that throws before it has called anything: the promise is
    rejected with what was thrown. *)
Lemma throw_at_once_rejects rl st target o context A id v :
  let h := st_heap st in
  let sep := separate rl h A in
  code_of h target = Some (Foreign id) ->
  host rl id (log (with_heap st (entry_heap rl h o sep))
                  (EOriginal target context (entry_args h sep)))
       context (entry_args h sep) = BThrow v ->
  exists st',
    call_promiseified rl st target o context A = (st', Normal (VRef (length h))) /\
    promise_state (st_heap st') (length h) = Some (Rejected (PExn (ThrowValue v))).
Proof.
  intros h sep Hc Hhost.
  assert (Hc3 : code_of (entry_heap rl h o sep) target = Some (Foreign id))
    by (eapply code_of_extends; [apply entry_heap_extends|exact Hc]).
  rewrite call_promiseified_unfold. fold h. fold sep.
  unfold apply_target. simpl st_heap. rewrite Hc3, Hhost. simpl.
  eexists. split; [reflexivity|]. simpl.
  by rewrite promise_state_settle, entry_heap_promise.
Qed.

Example thrower_rejected :
  let r := call_promiseified Demo.rl Demo.st_plain (VRef 11) 0 VNull [] in
  r.2 = Normal (VRef 16) /\
  promise_state (st_heap r.1) 16 = Some (Rejected (PExn (ThrowValue (VStr "boom")))).
Proof. vm_compute. split; reflexivity. Qed.

(** C4 as the claim has it fails on an original that calls the success
    handler it was given and then throws: the original throws 'late' during
    the call, and the promise of the call is not rejected with 'late', it is
    fulfilled with what the handler was called with. *)
Lemma late_throw_is_not_rejected :
  let a := Promiseify Demo.rl Demo.st0 (VRef 12) None in
  let r := invoke Demo.rl a.1 (VRef 16) [] in
  let h := st_heap a.1 in
  a.2 = Normal (VRef 16) /\
  (apply_target Demo.rl (with_heap a.1 (entry_heap Demo.rl h 0 (separate Demo.rl h [])))
                (VRef 12) VNull (entry_args h (separate Demo.rl h []))).2
    = Thrown (ThrowValue (VStr "late")) /\
  r.2 = Normal (VRef 17) /\
  promise_state (st_heap r.1) 17 = Some (Fulfilled (PArgs [VNum 1])) /\
  promise_state (st_heap r.1) 17 <> Some (Rejected (PExn (ThrowValue (VStr "late")))).
Proof.
  assert (Hrun : promise_state
                   (st_heap (invoke Demo.rl (Promiseify Demo.rl Demo.st0 (VRef 12) None).1
                                    (VRef 16) []).1) 17
                 = Some (Fulfilled (PArgs [VNum 1]))) by (vm_compute; reflexivity).
  cbv zeta. split; [vm_compute; reflexivity|]. split; [vm_compute; reflexivity|].
  split; [vm_compute; reflexivity|]. split; [exact Hrun|].
  rewrite Hrun. discriminate.
Qed.

(** ** What a handler does to its promise *)

Lemma promise_state_alloc h ob p s :
  promise_state h p = Some s -> promise_state (h ++ [ob]) p = Some s.
Proof.
  unfold promise_state. destruct (h !! p) as [ob0|] eqn:Hob; [|discriminate].
  by rewrite (lookup_app_l_Some _ _ _ _ Hob).
Qed.

(** execute settles nothing. *)
Lemma execute_promise_state rl st site fn args context p s :
  promise_state (st_heap st) p = Some s ->
  promise_state (st_heap (execute rl st site fn args context).1) p = Some s.
Proof.
  intros Hp. unfold execute. destruct (isFunction rl (st_heap st) fn); [|exact Hp].
  destruct (truthy context); simpl; [exact Hp|by apply promise_state_alloc].
Qed.

Lemma ensure_redirector_promise_state rl st o s p s0 :
  promise_state (st_heap st) p = Some s0 ->
  promise_state (st_heap (ensure_redirector rl st o s)) p = Some s0.
Proof.
  intros Hp. unfold ensure_redirector. destruct (st_opts st !! o) as [op|]; [|exact Hp].
  destruct (truthy (outcomeRedirector op)); [exact Hp|]. simpl.
  by apply promise_state_alloc.
Qed.

(** The redirector a handler consults, and the state in which it does. *)
Lemma fire_unfold rl st s p o sH fH R :
  let st1 := ensure_redirector rl st o s in
  let redirector := outcomeRedirector (default empty_options (st_opts st1 !! o)) in
  fire rl st s p o sH fH R =
    match execute rl st1 ERedirector redirector R VUndefined with
    | (st2, Thrown e) => (st2, Thrown e)
    | (st2, Normal v) =>
        if truthy v then executeSuccess rl st2 p sH R else executeFailure rl st2 p fH R
    end.
Proof. reflexivity. Qed.

(** A handler that returns has settled its promise, if it was pending, as
    the redirector said. *)
Lemma fire_outcome rl st s p o sH fH R st' :
  fire rl st s p o sH fH R = (st', Normal tt) ->
  promise_state (st_heap st) p = Some Pending ->
  let st1 := ensure_redirector rl st o s in
  let redirector := outcomeRedirector (default empty_options (st_opts st1 !! o)) in
  exists st2 v,
    execute rl st1 ERedirector redirector R VUndefined = (st2, Normal v) /\
    promise_state (st_heap st') p =
      Some (if truthy v then Fulfilled (PArgs R) else Rejected (PArgs R)).
Proof.
  intros Hfire Hp st1 redirector. rewrite fire_unfold in Hfire. fold st1 redirector in Hfire.
  pose proof (ensure_redirector_promise_state rl st o s p _ Hp) as Hp1. fold st1 in Hp1.
  pose proof (execute_promise_state rl st1 ERedirector redirector R VUndefined p _ Hp1) as Hp2.
  destruct (execute rl st1 ERedirector redirector R VUndefined) as [st2 [v|e]];
    [|discriminate].
  exists st2, v. split; [reflexivity|]. simpl in Hp2.
  destruct (truthy v).
  - unfold executeSuccess in Hfire.
    pose proof (execute_promise_state rl st2 EHandler sH R VUndefined p _ Hp2) as Hp3.
    destruct (execute rl st2 EHandler sH R VUndefined) as [st3 [u|e]]; [|discriminate].
    inversion Hfire; subst st'. simpl in *. by rewrite promise_state_settle, Hp3.
  - unfold executeFailure in Hfire.
    pose proof (execute_promise_state rl st2 EHandler fH R VUndefined p _ Hp2) as Hp3.
    destruct (execute rl st2 EHandler fH R VUndefined) as [st3 [u|e]]; [|discriminate].
    inversion Hfire; subst st'. simpl in *. by rewrite promise_state_settle, Hp3.
Qed.

(** A handler that throws has settled nothing. *)
Lemma fire_thrown rl st s p o sH fH R st' e q s0 :
  fire rl st s p o sH fH R = (st', Thrown e) ->
  promise_state (st_heap st) q = Some s0 ->
  promise_state (st_heap st') q = Some s0.
Proof.
  intros Hfire Hq. rewrite fire_unfold in Hfire.
  pose proof (ensure_redirector_promise_state rl st o s q _ Hq) as Hq1.
  pose proof (execute_promise_state rl _ ERedirector
                (outcomeRedirector
                   (default empty_options (st_opts (ensure_redirector rl st o s) !! o)))
                R VUndefined q _ Hq1) as Hq2.
  destruct (execute rl (ensure_redirector rl st o s) ERedirector _ R VUndefined)
    as [st2 [v|e2]].
  - simpl in Hq2. destruct (truthy v).
    + unfold executeSuccess in Hfire.
      pose proof (execute_promise_state rl st2 EHandler sH R VUndefined q _ Hq2) as Hq3.
      destruct (execute rl st2 EHandler sH R VUndefined) as [st3 [u|e3]]; [discriminate|].
      inversion Hfire; subst. exact Hq3.
    + unfold executeFailure in Hfire.
      pose proof (execute_promise_state rl st2 EHandler fH R VUndefined q _ Hq2) as Hq3.
      destruct (execute rl st2 EHandler fH R VUndefined) as [st3 [u|e3]]; [discriminate|].
      inversion Hfire; subst. exact Hq3.
  - inversion Hfire; subst. exact Hq2.
Qed.

(** A call adds the promise and the two handlers, and then only runs
    handlers, whatever the target is. *)
Lemma call_promiseified_grows rl st target o context A :
  let h := st_heap st in
  let h' := st_heap (call_promiseified rl st target o context A).1 in
  extends (entry_heap rl h o (separate rl h A)) h' /\
  (forall l, length h + 3 <= l -> promise_state h' l = None).
Proof.
  intros h h'. subst h'. rewrite call_promiseified_unfold. fold h.
  set (sep := separate rl h A).
  set (st3 := with_heap st (entry_heap rl h o sep)).
  assert (Hgo : extends (st_heap st3)
                  (st_heap (apply_target rl st3 target context (entry_args h sep)).1) /\
                (forall l, length (st_heap st3) <= l ->
                   promise_state
                     (st_heap (apply_target rl st3 target context (entry_args h sep)).1) l
                   = None)).
  { destruct (code_of (st_heap st3) target) as [c|] eqn:Hc.
    - destruct (apply_target_evolves rl st3 target context (entry_args h sep) c Hc)
        as (Hext & Hnew & _). split; [exact Hext|exact Hnew].
    - unfold apply_target. rewrite Hc. simpl. split; [apply extends_refl|].
      intros l Hl. unfold promise_state. by rewrite lookup_ge_None_2. }
  destruct Hgo as [Hext Hnew]. simpl in Hext, Hnew.
  rewrite entry_heap_length in Hnew.
  destruct (apply_target rl st3 target context (entry_args h sep)) as [st1 [r|e]];
    simpl in *.
  - split; [exact Hext|exact Hnew].
  - split; [eapply extends_trans; [exact Hext|apply extends_settle]|].
    intros l Hl. rewrite promise_state_settle_other by lia. by apply Hnew.
Qed.

Lemma call_promiseified_extends rl st target o context A :
  extends (st_heap st) (st_heap (call_promiseified rl st target o context A).1).
Proof.
  eapply extends_trans; [apply entry_heap_extends|].
  apply call_promiseified_grows.
Qed.

Lemma invoke_extends rl st (w : value) A :
  extends (st_heap st) (st_heap (invoke rl st w A).1).
Proof.
  unfold invoke.
  destruct (code_of (st_heap st) w) as [[id|t o c|s p o sH fH| | |]|]; simpl;
    try apply extends_refl.
  - apply call_promiseified_extends.
  - pose proof (fire_evolves rl st s p o sH fH A) as (Hext & _).
    by destruct (fire rl st s p o sH fH A) as [st1 [u|e]].
Qed.





(** ** Option records that carry a redirector keep it *)

Lemma execute_opts rl st site fn args context :
  st_opts (execute rl st site fn args context).1 = st_opts st.
Proof.
  unfold execute. destruct (isFunction rl (st_heap st) fn); [|reflexivity].
  by destruct (truthy context).
Qed.

Lemma executeSuccess_opts rl st p fn args :
  st_opts (executeSuccess rl st p fn args).1 = st_opts st.
Proof.
  unfold executeSuccess. pose proof (execute_opts rl st EHandler fn args VUndefined) as Hex.
  by destruct (execute rl st EHandler fn args VUndefined) as [st1 [u|e]].
Qed.

Lemma executeFailure_opts rl st p fn args :
  st_opts (executeFailure rl st p fn args).1 = st_opts st.
Proof.
  unfold executeFailure. pose proof (execute_opts rl st EHandler fn args VUndefined) as Hex.
  by destruct (execute rl st EHandler fn args VUndefined) as [st1 [u|e]].
Qed.

Lemma ensure_redirector_keeps rl st o' s o op : keeps o op st (ensure_redirector rl st o' s).
Proof.
  intros Hop Htruthy. unfold ensure_redirector.
  destruct (st_opts st !! o') as [op'|] eqn:Hop'; [|exact Hop].
  destruct (truthy (outcomeRedirector op')) eqn:Ht; [exact Hop|]. simpl.
  destruct (decide (o = o')) as [->|Hne]; [congruence|].
  by rewrite list_lookup_insert_ne.
Qed.

Lemma fire_keeps rl st s p o' sH fH R o op : keeps o op st (fire rl st s p o' sH fH R).1.
Proof.
  intros Hop Htruthy. rewrite fire_unfold.
  pose proof (ensure_redirector_keeps rl st o' s o op Hop Htruthy) as H1.
  set (st1 := ensure_redirector rl st o' s) in *.
  pose proof (execute_opts rl st1 ERedirector
                (outcomeRedirector (default empty_options (st_opts st1 !! o')))
                R VUndefined) as H2.
  destruct (execute rl st1 ERedirector _ R VUndefined) as [st2 [v|e]]; simpl in *.
  - destruct (truthy v).
    + by rewrite executeSuccess_opts, H2.
    + by rewrite executeFailure_opts, H2.
  - by rewrite H2.
Qed.

Lemma call_value_keeps rl st (f : value) R o op : keeps o op st (call_value rl st f R).1.
Proof.
  unfold call_value.
  destruct (code_of (st_heap st) f) as [[id|t o' c|s p o' sH fH| | |]|]; simpl;
    try (intros Hop _; exact Hop).
  apply fire_keeps.
Qed.

Lemma run_body_keeps rl b o op : forall st, keeps o op st (run_body rl st b).1.
Proof.
  induction b as [v|e|f R caught k IH]; intros st Hop Htruthy; simpl; try exact Hop.
  pose proof (call_value_keeps rl st f R o op Hop Htruthy) as Hcall.
  destruct (call_value rl st f R) as [st1 [u|e]]; simpl in *.
  - by apply IH.
  - destruct caught; [by apply IH|exact Hcall].
Qed.

Lemma apply_target_keeps rl st target context args o op :
  keeps o op st (apply_target rl st target context args).1.
Proof.
  intros Hop Htruthy. unfold apply_target.
  destruct (code_of (st_heap st) target) as [[id|t o' c|s p o' sH fH| | |]|]; simpl;
    try exact Hop.
  by apply run_body_keeps.
Qed.

Lemma call_promiseified_keeps rl st target o' context A o op :
  keeps o op st (call_promiseified rl st target o' context A).1.
Proof.
  intros Hop Htruthy. rewrite call_promiseified_unfold.
  pose proof (apply_target_keeps rl
                (with_heap st (entry_heap rl (st_heap st) o' (separate rl (st_heap st) A)))
                target context (entry_args (st_heap st) (separate rl (st_heap st) A))
                o op Hop Htruthy) as Hkeep.
  by destruct (apply_target _ _ _ _ _) as [st1 [u|e]].
Qed.

Lemma invoke_keeps rl st (w : value) A o op : keeps o op st (invoke rl st w A).1.
Proof.
  intros Hop Htruthy. unfold invoke.
  destruct (code_of (st_heap st) w) as [[id|t o' c|s p o' sH fH| | |]|]; simpl;
    try exact Hop.
  - by apply call_promiseified_keeps.
  - pose proof (fire_keeps rl st s p o' sH fH A o op Hop Htruthy) as Hkeep.
    by destruct (fire rl st s p o' sH fH A) as [st1 [u|e]].
Qed.

Lemma error_first_at_step st st' o :
  error_first_at st o ->
  (forall op, keeps o op st st') -> extends (st_heap st) (st_heap st') ->
  error_first_at st' o.
Proof.
  intros (op & r & Hop & Hr & Hcode) Hkeep Hext. exists op, r.
  split; [apply Hkeep; [exact Hop|by rewrite Hr]|].
  split; [exact Hr|]. eapply code_of_extends; eauto.
Qed.

(** ** The error-first preset *)

Lemma ensure_redirector_error_first rl st o s :
  error_first_at st o -> ensure_redirector rl st o s = st.
Proof.
  intros (op & r & Hop & Hr & _). unfold ensure_redirector. by rewrite Hop, Hr.
Qed.

(** With the error-first redirector in place, the redirector's answer is
    the negation of the first result argument. *)
Lemma execute_error_first rl st o s R :
  error_first_at st o ->
  let st1 := ensure_redirector rl st o s in
  exists st2,
    execute rl st1 ERedirector
            (outcomeRedirector (default empty_options (st_opts st1 !! o))) R VUndefined
    = (st2, Normal (VBool (negb (truthy (arg R 0))))).
Proof.
  intros Hef st1. subst st1. rewrite (ensure_redirector_error_first rl st o s Hef).
  destruct Hef as (op & r & Hop & Hr & Hcode). rewrite Hop. simpl. rewrite Hr.
  unfold execute. rewrite (code_of_isFunction rl _ _ _ Hcode). simpl.
  eexists. f_equal. unfold apply_leaf. simpl st_heap.
  by rewrite (code_of_extends _ _ _ _ (extends_alloc _ _) Hcode).
Qed.

Lemma isFunction_alloc rl h ob v :
  isFunction rl h v = true -> isFunction rl (h ++ [ob]) v = true.
Proof.
  intros Hf. rewrite (isFunction_extends rl h (h ++ [ob]) v); [exact Hf| |].
  - apply extends_alloc.
  - by eapply isFunction_valid.
Qed.

(** nodeStyle on a callable: the adapted function is a new closure over an
    option record that carries the error-first redirector. *)
Lemma nodeStyle_installs rl st target opts :
  isFunction rl (st_heap st) target = true ->
  (forall o, opts = Some o -> is_Some (st_opts st !! o)) ->
  exists st' w o,
    nodeStyle rl st target opts = (st', Normal (VRef w)) /\
    st_heap st !! w = None /\
    code_of (st_heap st') (VRef w) = Some (Promiseified target o VNull) /\
    error_first_at st' o.
Proof.
  intros Hf Hopts. unfold nodeStyle, alloc, buildWithOutcomeRedirector, Promiseify.
  set (h1 := st_heap st ++ [Object (KFunction ErrorFirst) ∅ (Some (Function_prototype rl))]).
  assert (Hf1 : isFunction rl h1 target = true) by (by apply isFunction_alloc).
  assert (Hr : code_of (h1 ++ [Object (KFunction (Promiseified target
                                                    (default (length (st_opts st)) opts) VNull))
                                      ∅ (Some (Function_prototype rl))])
                       (VRef (length (st_heap st))) = Some ErrorFirst).
  { simpl. unfold h1. rewrite lookup_app_l by (rewrite length_app; simpl; lia).
    rewrite lookup_app_r by lia. by rewrite Nat.sub_diag. }
  assert (Hw : forall o, code_of (h1 ++ [Object (KFunction (Promiseified target o VNull))
                                               ∅ (Some (Function_prototype rl))])
                                 (VRef (length h1)) = Some (Promiseified target o VNull)).
  { intros o. simpl. rewrite lookup_app_r by lia. by rewrite Nat.sub_diag. }
  assert (Hfresh : st_heap st !! length h1 = None).
  { apply lookup_ge_None_2. unfold h1. rewrite length_app. simpl. lia. }
  destruct opts as [o|]; simpl normalize_options; cbv iota beta.
  - destruct (Hopts o eq_refl) as [op Hop]. simpl. rewrite Hop.
    unfold doPromiseify. simpl. rewrite Hf1. unfold promiseifyFunction, alloc. simpl.
    eexists _, (length h1), o. split; [reflexivity|]. split; [exact Hfresh|].
    simpl. split; [apply Hw|].
    exists (set_redirector op (VRef (length (st_heap st)))), (length (st_heap st)).
    simpl. split; [|split; [reflexivity|exact Hr]].
    apply list_lookup_insert_eq. by eapply lookup_lt_Some.
  - simpl. rewrite lookup_app_r by lia. rewrite Nat.sub_diag. simpl.
    unfold doPromiseify. simpl. rewrite Hf1. unfold promiseifyFunction, alloc. simpl.
    eexists _, (length h1), (length (st_opts st)). split; [reflexivity|].
    split; [exact Hfresh|]. simpl. split; [apply Hw|].
    exists (set_redirector empty_options (VRef (length (st_heap st)))),
           (length (st_heap st)).
    simpl. split; [|split; [reflexivity|exact Hr]].
    rewrite list_lookup_insert_eq; [reflexivity|]. rewrite length_app. simpl. lia.
Qed.

Lemma fire_error_first rl st o s p sH fH R s0 st' res :
  error_first_at st o ->
  promise_state (st_heap st) p = Some s0 ->
  fire rl st s p o sH fH R = (st', res) ->
  promise_state (st_heap st') p =
    Some match res, s0 with
         | Normal _, Pending =>
             if truthy (arg R 0) then Rejected (PArgs R) else Fulfilled (PArgs R)
         | _, _ => s0
         end.
Proof.
  intros Hef Hp Hfire. destruct res as [[]|e].
  - assert (Hcase : s0 = Pending \/ s0 <> Pending)
      by (destruct s0; [by left|by right|by right]).
    destruct Hcase as [->|Hs0].
    + destruct (fire_outcome rl st s p o sH fH R st' Hfire Hp) as (st2 & v & Hex & Hstate).
      destruct (execute_error_first rl st o s R Hef) as [st2' Hex'].
      rewrite Hex in Hex'. inversion Hex'; subst. rewrite Hstate. simpl.
      by destruct (truthy (arg R 0)).
    + pose proof (fire_evolves rl st s p o sH fH R) as [Hext _]. rewrite Hfire in Hext.
      simpl in Hext. rewrite (promise_state_extends_settled _ _ _ _ Hext Hp Hs0).
      by destruct s0.
  - rewrite (fire_thrown rl st s p o sH fH R st' e p s0 Hfire Hp). by destruct s0.
Qed.

(** The spec's scenario: fetch(cb) calls cb('boom'); under the error-first
    preset the promise of the adapted call is rejected with ['boom']. *)
Example nodeStyle_fetch_rejects :
  let a := nodeStyle Demo.rl Demo.st0 (VRef 13) None in
  let r := invoke Demo.rl a.1 (VRef 17) [] in
  a.2 = Normal (VRef 17) /\ r.2 = Normal (VRef 18) /\
  promise_state (st_heap r.1) 18 = Some (Rejected (PArgs [VStr "boom"])).
Proof. vm_compute. repeat split. Qed.

(** ** The default redirectors *)

Lemma fire_opts rl st s p o sH fH R :
  st_opts (fire rl st s p o sH fH R).1 = st_opts (ensure_redirector rl st o s).
Proof.
  rewrite fire_unfold.
  pose proof (execute_opts rl (ensure_redirector rl st o s) ERedirector
                (outcomeRedirector
                   (default empty_options (st_opts (ensure_redirector rl st o s) !! o)))
                R VUndefined) as Hex.
  destruct (execute rl (ensure_redirector rl st o s) ERedirector _ R VUndefined)
    as [st2 [v|e]]; simpl in *; [|exact Hex].
  destruct (truthy v).
  - by rewrite executeSuccess_opts.
  - by rewrite executeFailure_opts.
Qed.

Lemma fire_evolves_from rl st s p o sH fH R :
  evolves (ensure_redirector rl st o s) (fire rl st s p o sH fH R).1.
Proof.
  rewrite fire_unfold.
  pose proof (execute_evolves rl (ensure_redirector rl st o s) ERedirector
                (outcomeRedirector
                   (default empty_options (st_opts (ensure_redirector rl st o s) !! o)))
                R VUndefined (fun _ _ => eq_refl)) as Hex.
  destruct (execute rl (ensure_redirector rl st o s) ERedirector _ R VUndefined)
    as [st2 [v|e]]; simpl in *; [|exact Hex].
  destruct (truthy v).
  - eapply evolves_trans; [exact Hex|apply executeSuccess_evolves].
  - eapply evolves_trans; [exact Hex|apply executeFailure_evolves].
Qed.

(** On an option record without a redirector, the handler that is called
    stores its own default in the record, and the outcome is its own:
    success fulfills, error rejects. *)
Lemma fire_default_fresh rl st s p o sH fH R op st' :
  st_opts st !! o = Some op -> truthy (outcomeRedirector op) = false ->
  promise_state (st_heap st) p = Some Pending ->
  fire rl st s p o sH fH R = (st', Normal tt) ->
  promise_state (st_heap st') p =
    Some match s with
         | OnSuccess => Fulfilled (PArgs R)
         | OnError => Rejected (PArgs R)
         end /\
  exists r, (outcomeRedirector <$> st_opts st' !! o) = Some (VRef r) /\
            code_of (st_heap st') (VRef r) = Some (default_redirector s).
Proof.
  intros Hop Hfalsy Hp Hfire.
  destruct (fire_outcome rl st s p o sH fH R st' Hfire Hp) as (st2 & v & Hex & Hstate).
  pose proof (fire_evolves_from rl st s p o sH fH R) as [Hext _].
  pose proof (fire_opts rl st s p o sH fH R) as Hopts.
  rewrite Hfire in Hext, Hopts. simpl in Hext, Hopts.
  unfold ensure_redirector in Hex, Hopts, Hext. rewrite Hop, Hfalsy in Hex, Hopts, Hext.
  simpl in Hex, Hopts, Hext.
  rewrite list_lookup_insert_eq in Hex by (by eapply lookup_lt_Some). simpl in Hex.
  set (h1 := st_heap st ++ [Object (KFunction (default_redirector s)) ∅
                                   (Some (Function_prototype rl))]) in *.
  assert (Hr : code_of h1 (VRef (length (st_heap st))) = Some (default_redirector s)).
  { simpl. unfold h1. rewrite lookup_app_r by lia. by rewrite Nat.sub_diag. }
  unfold execute in Hex. simpl st_heap in Hex.
  rewrite (code_of_isFunction rl _ _ _ Hr) in Hex. simpl in Hex.
  unfold apply_leaf in Hex. simpl st_heap in Hex.
  rewrite (code_of_extends _ _ _ _ (extends_alloc _ _) Hr) in Hex.
  split.
  - rewrite Hstate. destruct s; simpl in Hex; inversion Hex; reflexivity.
  - exists (length (st_heap st)). split.
    + rewrite Hopts, list_lookup_insert_eq by (by eapply lookup_lt_Some). reflexivity.
    + eapply code_of_extends; [exact Hext|exact Hr].
Qed.

(** Once a default is stored, it decides for both handlers: with the
    default of the success handler in the record, the error handler
    fulfills. *)
Lemma fire_default_stored rl st s p o sH fH R op r s1 st' :
  st_opts st !! o = Some op -> outcomeRedirector op = VRef r ->
  code_of (st_heap st) (VRef r) = Some (default_redirector s1) ->
  promise_state (st_heap st) p = Some Pending ->
  fire rl st s p o sH fH R = (st', Normal tt) ->
  promise_state (st_heap st') p =
    Some match s1 with
         | OnSuccess => Fulfilled (PArgs R)
         | OnError => Rejected (PArgs R)
         end.
Proof.
  intros Hop Hr Hcode Hp Hfire.
  destruct (fire_outcome rl st s p o sH fH R st' Hfire Hp) as (st2 & v & Hex & Hstate).
  unfold ensure_redirector in Hex. rewrite Hop, Hr in Hex. simpl in Hex.
  rewrite Hop in Hex. simpl in Hex. rewrite Hr in Hex.
  unfold execute in Hex. rewrite (code_of_isFunction rl _ _ _ Hcode) in Hex. simpl in Hex.
  unfold apply_leaf in Hex. simpl st_heap in Hex.
  rewrite (code_of_extends _ _ _ _ (extends_alloc _ _) Hcode) in Hex.
  rewrite Hstate. destruct s1; simpl in Hex; inversion Hex; reflexivity.
Qed.

(** C2 fails on the code: pick, adapted with no options, is called twice.
    The first call takes the success path, which stores the always-true
    redirector in the option record the two calls share; in the second call
    the original calls the injected error handler, and the promise of that
    call is fulfilled. *)
Theorem default_redirector_is_sticky :
  let a := Promiseify Demo.rl Demo.st0 (VRef 10) None in
  let c1 := invoke Demo.rl a.1 (VRef 16) [VBool true] in
  let c2 := invoke Demo.rl c1.1 (VRef 16) [VBool false] in
  a.2 = Normal (VRef 16) /\
  c1.2 = Normal (VRef 17) /\
  promise_state (st_heap c1.1) 17 = Some (Fulfilled (PArgs [])) /\
  c2.2 = Normal (VRef 22) /\
  last (st_trace c2.1) = Some (ERedirector (VRef 20) []) /\
  code_of (st_heap c2.1) (VRef 20) = Some TrueRedirector /\
  Demo.program 3 c1.1 VNull [VBool false; VRef 23; VRef 24] =
    BFire (VRef 24) [] false (BReturn VUndefined) /\
  code_of (st_heap c2.1) (VRef 24) = Some (Injected OnError 22 0 VUndefined VUndefined) /\
  promise_state (st_heap c2.1) 22 = Some (Fulfilled (PArgs [])).
Proof. vm_compute. repeat split. Qed.

(** C8 as the claim has it fails when the caller's own handler throws: save,
    adapted with the error-first preset, is called with a datum and a
    success handler that throws.  save calls the injected success handler
    with no argument, the redirector answers success, the caller's handler
    is called, and throws, before the promise is settled: what it threw goes
    through save into the executor, and the promise is rejected with it. *)
Lemma error_first_throwing_handler_not_fulfilled :
  let a := nodeStyle Demo.rl Demo.st0 (VRef 6) None in
  let r := invoke Demo.rl a.1 (VRef 17) [VNum 1; VRef 14] in
  a.2 = Normal (VRef 17) /\
  r.2 = Normal (VRef 18) /\
  st_trace r.1 = [EOriginal (VRef 6) VNull [VNum 1; VRef 19; VRef 20];
                  ERedirector (VRef 16) []; EHandler (VRef 14) []] /\
  code_of (st_heap r.1) (VRef 16) = Some ErrorFirst /\
  promise_state (st_heap r.1) 18 = Some (Rejected (PExn (ThrowValue (VStr "handler")))) /\
  promise_state (st_heap r.1) 18 <> Some (Fulfilled (PArgs [])).
Proof.
  assert (Hrun : promise_state
                   (st_heap (invoke Demo.rl (nodeStyle Demo.rl Demo.st0 (VRef 6) None).1
                                    (VRef 17) [VNum 1; VRef 14]).1) 18
                 = Some (Rejected (PExn (ThrowValue (VStr "handler")))))
    by (vm_compute; reflexivity).
  cbv zeta. split; [vm_compute; reflexivity|]. split; [vm_compute; reflexivity|].
  split; [vm_compute; reflexivity|]. split; [vm_compute; reflexivity|].
  split; [exact Hrun|]. rewrite Hrun. discriminate.
Qed.

(** The same preset, a promise that is already rejected: a handler called
    with a falsy first argument leaves it rejected. *)
Example error_first_second_call_is_ignored :
  let f1 := fire Demo.rl Demo.st_node_entry OnError 18 0 VUndefined VUndefined
                 [VStr "boom"] in
  let f2 := fire Demo.rl f1.1 OnSuccess 18 0 VUndefined VUndefined [VNull; VNum 4] in
  promise_state (st_heap f1.1) 18 = Some (Rejected (PArgs [VStr "boom"])) /\
  f2.2 = Normal tt /\
  promise_state (st_heap f2.1) 18 = Some (Rejected (PArgs [VStr "boom"])).
Proof. vm_compute. repeat split. Qed.

(** ** Every member adapted in one go shares the option record *)

Lemma set_prop_length h l name v : length (set_prop h l name v) = length h.
Proof. unfold set_prop. destruct (h !! l); [apply length_insert|reflexivity]. Qed.

Lemma promiseify_loop_step rl st target o name rest v :
  read_prop (st_heap st) target name = Normal v ->
  isFunction rl (st_heap st) v = true ->
  promiseify_loop rl st target o (name :: rest) =
  promiseify_loop rl (member_wrapped rl st target o name v) target o rest.
Proof.
  intros Hread Hf. simpl. rewrite Hread, Hf. unfold member_wrapped.
  by destruct target.
Qed.

Lemma member_wrapped_spec rl st target o name v :
  let st2 := member_wrapped rl st target o name v in
  st_opts st2 = st_opts st /\
  extends (st_heap st) (st_heap st2) /\
  length (st_heap st2) = S (length (st_heap st)) /\
  code_of (st_heap st2) (VRef (length (st_heap st))) = Some (Promiseified v o target).
Proof.
  set (wobj := Object (KFunction (Promiseified v o target)) ∅ (Some (Function_prototype rl))).
  assert (Hc0 : code_of (st_heap st ++ [wobj]) (VRef (length (st_heap st))) =
                Some (Promiseified v o target)).
  { simpl. rewrite lookup_app_r by lia. by rewrite Nat.sub_diag. }
  assert (Hlen : length (st_heap st ++ [wobj]) = S (length (st_heap st)))
    by (rewrite length_app; simpl; lia).
  unfold member_wrapped. fold wobj.
  destruct target as [| | | | | |l]; simpl st_heap; simpl st_opts;
    try (split; [reflexivity|]; split; [apply extends_alloc|]; split; [exact Hlen|exact Hc0]).
  split; [reflexivity|]. split.
  - eapply extends_trans; [apply extends_alloc|apply extends_set_prop].
  - split; [by rewrite set_prop_length|].
    eapply code_of_extends; [apply extends_set_prop|exact Hc0].
Qed.

Lemma promiseify_loop_members rl o target names : forall st,
  let st' := (promiseify_loop rl st target o names).1 in
  st_opts st' = st_opts st /\
  extends (st_heap st) (st_heap st') /\
  forall w c, length (st_heap st) <= w -> code_of (st_heap st') (VRef w) = Some c ->
              exists t, c = Promiseified t o target.
Proof.
  assert (Hnone : forall st, st_opts st = st_opts st /\
            extends (st_heap st) (st_heap st) /\
            forall w c, length (st_heap st) <= w -> code_of (st_heap st) (VRef w) = Some c ->
                        exists t, c = Promiseified t o target).
  { intros st. split; [reflexivity|]. split; [apply extends_refl|].
    intros w c Hw Hc. simpl in Hc. rewrite lookup_ge_None_2 in Hc by lia. discriminate. }
  induction names as [|name rest IH]; intros st; [apply Hnone|].
  destruct (read_prop (st_heap st) target name) as [v|e] eqn:Hread.
  2:{ simpl. rewrite Hread. apply Hnone. }
  destruct (isFunction rl (st_heap st) v) eqn:Hf.
  2:{ simpl. rewrite Hread, Hf. apply IH. }
  rewrite (promiseify_loop_step rl st target o name rest v Hread Hf).
  destruct (member_wrapped_spec rl st target o name v) as (Hopts2 & Hext2 & Hlen2 & Hc2).
  destruct (IH (member_wrapped rl st target o name v)) as (Hopts & Hext & Hnews).
  split; [congruence|]. split; [eauto using extends_trans|].
  intros w c Hw Hc. destruct (decide (w = length (st_heap st))) as [->|Hne].
  - rewrite (code_of_extends _ _ _ _ Hext Hc2) in Hc. inversion Hc. eauto.
  - apply (Hnews w c); [lia|exact Hc].
Qed.

Lemma doPromiseify_members rl st target o context :
  isFunction rl (st_heap st) target = false ->
  let st' := (doPromiseify rl st target (Some o) context).1 in
  st_opts st' = st_opts st /\
  extends (st_heap st) (st_heap st') /\
  forall w c, length (st_heap st) <= w -> code_of (st_heap st') (VRef w) = Some c ->
              exists t, c = Promiseified t o target.
Proof.
  intros Hf.
  pose proof (promiseify_loop_members rl o target [] st) as Hnone. simpl in Hnone.
  unfold doPromiseify. simpl normalize_options. cbv iota beta. rewrite Hf.
  destruct (isObject (st_heap st) target); [|exact Hnone].
  set (selected := match only (default empty_options (st_opts st !! o)) with
                   | Some names => Normal names
                   | None => _
                   end).
  destruct selected as [names|e]; [|exact Hnone].
  pose proof (promiseify_loop_members rl o target names st) as Hloop.
  by destruct (promiseify_loop rl st target o names) as [st1 [u|e]].
Qed.

(** nodeStyle on an object: every function the call creates, the
    redirector apart, is the adaptation of a member, closed over the one
    option record that carries the redirector. *)
Lemma nodeStyle_members rl st target opts :
  valid (st_heap st) target = true ->
  isFunction rl (st_heap st) target = false ->
  (forall o, opts = Some o -> is_Some (st_opts st !! o)) ->
  exists o,
    error_first_at (nodeStyle rl st target opts).1 o /\
    forall w c, length (st_heap st) < w ->
                code_of (st_heap (nodeStyle rl st target opts).1) (VRef w) = Some c ->
                exists t, c = Promiseified t o target.
Proof.
  intros Hvalid Hf Hopts. unfold nodeStyle, alloc, buildWithOutcomeRedirector, Promiseify.
  set (h1 := st_heap st ++ [Object (KFunction ErrorFirst) ∅ (Some (Function_prototype rl))]).
  assert (Hf1 : isFunction rl h1 target = false).
  { unfold h1. rewrite (isFunction_extends rl (st_heap st)); auto using extends_alloc. }
  assert (Hr : code_of h1 (VRef (length (st_heap st))) = Some ErrorFirst).
  { simpl. unfold h1. rewrite lookup_app_r by lia. by rewrite Nat.sub_diag. }
  assert (Hlen : length h1 = S (length (st_heap st)))
    by (unfold h1; rewrite length_app; simpl; lia).
  assert (Hgo : forall (st2 : state) o op,
            st_heap st2 = h1 -> st_opts st2 !! o = Some op ->
            outcomeRedirector op = VRef (length (st_heap st)) ->
            error_first_at (doPromiseify rl st2 target (Some o) VNull).1 o /\
            forall w c, length (st_heap st) < w ->
              code_of (st_heap (doPromiseify rl st2 target (Some o) VNull).1) (VRef w) = Some c ->
              exists t, c = Promiseified t o target).
  { intros st2 o op Hh2 Hop Hredir.
    destruct (doPromiseify_members rl st2 target o VNull) as (Hopts' & Hext & Hnews).
    { by rewrite Hh2. }
    rewrite Hh2 in Hext, Hnews. split.
    - exists op, (length (st_heap st)). split; [by rewrite Hopts'|]. split; [exact Hredir|].
      eapply code_of_extends; [exact Hext|exact Hr].
    - intros w c Hw Hc. apply (Hnews w c); [lia|exact Hc]. }
  destruct opts as [o|]; simpl normalize_options; cbv iota beta.
  - destruct (Hopts o eq_refl) as [op Hop]. exists o. simpl st_opts. rewrite Hop.
    apply (Hgo _ o (set_redirector op (VRef (length (st_heap st))))); [reflexivity| |reflexivity].
    simpl. apply list_lookup_insert_eq. by eapply lookup_lt_Some.
  - exists (length (st_opts st)). simpl st_opts.
    rewrite lookup_app_r by lia. rewrite Nat.sub_diag. simpl.
    apply (Hgo _ _ (set_redirector empty_options (VRef (length (st_heap st)))));
      [reflexivity| |reflexivity].
    simpl. rewrite list_lookup_insert_eq; [reflexivity|]. rewrite length_app. simpl. lia.
Qed.

(** C8, as the code has it: under the error-first preset the outcome is
    decided by the first result argument alone.  nodeStyle gives the adapted
    function, or every member it adapts on an object, an option record that
    carries the redirector  error => !error, and the record keeps it through
    every later call; with it in place,
    whichever injected handler is called, a handler that runs to its end
    settles its pending promise as fulfilled with the result arguments when
    the first of them is falsy or absent, and as rejected with them when it
    is truthy.  A promise that is already settled stays as it is, and a
    handler that is cut short, because the caller's own handler threw,
    settles nothing. *)
Theorem nodeStyle_outcome rl :
  (forall st target opts,
     isFunction rl (st_heap st) target = true ->
     (forall o, opts = Some o -> is_Some (st_opts st !! o)) ->
     exists st' w o,
       nodeStyle rl st target opts = (st', Normal (VRef w)) /\
       st_heap st !! w = None /\
       code_of (st_heap st') (VRef w) = Some (Promiseified target o VNull) /\
       error_first_at st' o) /\
  (forall st target opts,
     valid (st_heap st) target = true ->
     isFunction rl (st_heap st) target = false ->
     (forall o, opts = Some o -> is_Some (st_opts st !! o)) ->
     exists o,
       error_first_at (nodeStyle rl st target opts).1 o /\
       forall w c, length (st_heap st) < w ->
                   code_of (st_heap (nodeStyle rl st target opts).1) (VRef w) = Some c ->
                   exists t, c = Promiseified t o target) /\
  (forall st o s p sH fH R s0 st' res,
     error_first_at st o ->
     promise_state (st_heap st) p = Some s0 ->
     fire rl st s p o sH fH R = (st', res) ->
     promise_state (st_heap st') p =
       Some match res, s0 with
            | Normal _, Pending =>
                if truthy (arg R 0) then Rejected (PArgs R) else Fulfilled (PArgs R)
            | _, _ => s0
            end) /\
  (forall st o,
     error_first_at st o ->
     (forall b, error_first_at (run_body rl st b).1 o) /\
     (forall (w : value) A, error_first_at (invoke rl st w A).1 o)).
Proof.
  split; [|split; [|split]].
  - apply nodeStyle_installs.
  - apply nodeStyle_members.
  - intros st o s p sH fH R s0 st' res. apply fire_error_first.
  - intros st o Hef. split.
    + intros b. eapply error_first_at_step; [exact Hef| |apply run_body_evolves].
      intros op. apply run_body_keeps.
    + intros w A. eapply error_first_at_step; [exact Hef| |apply invoke_extends].
      intros op. apply invoke_keeps.
Qed.

Lemma nodeStyle_outcome_witness :
  (exists st' w o,
     nodeStyle Demo.rl Demo.st0 (VRef 13) None = (st', Normal (VRef w)) /\
     st_heap Demo.st0 !! w = None /\
     code_of (st_heap st') (VRef w) = Some (Promiseified (VRef 13) o VNull) /\
     error_first_at st' o) /\
  promise_state
    (st_heap (fire Demo.rl Demo.st_node_entry OnSuccess 18 0 VUndefined VUndefined
                   [VStr "boom"]).1) 18
  = Some (Rejected (PArgs [VStr "boom"])) /\
  promise_state
    (st_heap (fire Demo.rl Demo.st_node_entry OnError 18 0 VUndefined VUndefined
                   [VNull; VNum 4]).1) 18
  = Some (Fulfilled (PArgs [VNull; VNum 4])).
Proof.
  destruct (nodeStyle_outcome Demo.rl) as (Hinstall & _ & Hfire & _).
  assert (Hef : error_first_at Demo.st_node_entry 0).
  { exists (Options None None None (VRef 16)), 16. repeat split; vm_compute; reflexivity. }
  split; [|split].
  - apply (Hinstall Demo.st0 (VRef 13) None); [reflexivity|].
    intros o Ho. discriminate.
  - apply (Hfire Demo.st_node_entry 0 OnSuccess 18 VUndefined VUndefined [VStr "boom"]
                 Pending _ (Normal tt) Hef); vm_compute; reflexivity.
  - apply (Hfire Demo.st_node_entry 0 OnError 18 VUndefined VUndefined [VNull; VNum 4]
                 Pending _ (Normal tt) Hef); vm_compute; reflexivity.
Defined.


(** * Further properties of the adapter *)

(** ** Adaptation on its own *)

Lemma promise_state_alloc_function h c props proto p :
  promise_state (h ++ [Object (KFunction c) props proto]) p = promise_state h p.
Proof.
  unfold promise_state. destruct (decide (p < length h)) as [Hlt|Hge].
  - by rewrite lookup_app_l.
  - rewrite (lookup_ge_None_2 h p) by lia. rewrite lookup_app_r by lia.
    by destruct (p - length h) as [|n].
Qed.

Lemma promise_state_set_prop h l name v p :
  promise_state (set_prop h l name v) p = promise_state h p.
Proof.
  unfold promise_state, set_prop. destruct (h !! l) as [ob|] eqn:Hob; [|reflexivity].
  destruct (decide (p = l)) as [->|Hne].
  - rewrite list_lookup_insert_eq by (by eapply lookup_lt_Some). by rewrite Hob.
  - by rewrite list_lookup_insert_ne.
Qed.

Lemma member_wrapped_inert rl st target o name v :
  let st2 := member_wrapped rl st target o name v in
  st_trace st2 = st_trace st /\
  forall p, promise_state (st_heap st2) p = promise_state (st_heap st) p.
Proof.
  unfold member_wrapped. destruct target; simpl; split; try reflexivity; intros p;
    rewrite ?promise_state_set_prop; apply promise_state_alloc_function.
Qed.

Lemma promiseify_loop_inert rl o target names : forall st,
  let st' := (promiseify_loop rl st target o names).1 in
  st_trace st' = st_trace st /\
  forall p, promise_state (st_heap st') p = promise_state (st_heap st) p.
Proof.
  induction names as [|name rest IH]; intros st; [by split|].
  destruct (read_prop (st_heap st) target name) as [v|e] eqn:Hread.
  2:{ simpl. rewrite Hread. by split. }
  destruct (isFunction rl (st_heap st) v) eqn:Hf.
  2:{ simpl. rewrite Hread, Hf. apply IH. }
  rewrite (promiseify_loop_step rl st target o name rest v Hread Hf).
  destruct (member_wrapped_inert rl st target o name v) as [Htr Hps].
  destruct (IH (member_wrapped rl st target o name v)) as [Htr' Hps'].
  split; [congruence|]. intros p. by rewrite Hps', Hps.
Qed.

(** X1: adapting calls nothing and settles nothing.  Whatever the target
    and the options, doPromiseify leaves the trace as it was, creates no
    promise and changes the state of none, and leaves the option records as
    they were, but for the empty record it adds when it is given none: the
    original is only entered when the adapted function is called. *)
Theorem doPromiseify_inert rl st target opts context :
  let st' := (doPromiseify rl st target opts context).1 in
  st_trace st' = st_trace st /\
  (forall p, promise_state (st_heap st') p = promise_state (st_heap st) p) /\
  st_opts st' = st_opts st ++ match opts with
                              | Some _ => []
                              | None => [empty_options]
                              end.
Proof.
  unfold doPromiseify.
  destruct (normalize_options st opts) as [st1 o] eqn:Hnorm.
  assert (Hst1 : st_trace st1 = st_trace st /\ st_heap st1 = st_heap st /\
                 st_opts st1 = st_opts st ++ match opts with
                                             | Some _ => []
                                             | None => [empty_options]
                                             end).
  { unfold normalize_options in Hnorm. destruct opts; inversion Hnorm; subst; simpl;
      rewrite ?app_nil_r; by repeat split. }
  destruct Hst1 as (Htr1 & Hh1 & Hop1).
  destruct (isFunction rl (st_heap st1) target).
  { simpl. rewrite Hh1. split; [exact Htr1|]. split; [|exact Hop1].
    intros p. apply promise_state_alloc_function. }
  destruct (isObject (st_heap st1) target).
  2:{ simpl. rewrite Hh1. by repeat split. }
  set (selected := match only (default empty_options (st_opts st1 !! o)) with
                   | Some names => Normal names
                   | None => _
                   end).
  destruct selected as [names|e].
  2:{ simpl. rewrite Hh1. by repeat split. }
  destruct (promiseify_loop_inert rl o target names st1) as [Htr Hps].
  destruct (promiseify_loop_members rl o target names st1) as (Hopts & _ & _).
  destruct (promiseify_loop rl st1 target o names) as [st2 [u|e]]; simpl in *;
    (split; [congruence|]; split; [intros p; by rewrite Hps, Hh1|congruence]).
Qed.

(** ** The members an adaptation selects *)

Lemma adapted_member_extends rl h h1 h2 l o name :
  extends h1 h2 -> own h2 l name = own h1 l name ->
  adapted_member rl h h1 l o name -> adapted_member rl h h2 l o name.
Proof.
  intros Hext Hown (w & Hw & Hmem & Hcode). exists w. split; [exact Hw|].
  split; [congruence|]. eapply code_of_extends; eauto.
Qed.

(** The loop of lines 267-271 over names that are all different: each
    callable member is adapted once, around the value it had, and nothing
    else changes. *)
Lemma promiseify_loop_nodup rl o l names : forall st,
  NoDup names ->
  l < length (st_heap st) ->
  (forall name, valid (st_heap st) (get (st_heap st) l name) = true) ->
  exists st',
    promiseify_loop rl st (VRef l) o names = (st', Normal tt) /\
    extends (st_heap st) (st_heap st') /\
    (forall l', l' <> l -> l' < length (st_heap st) ->
                st_heap st' !! l' = st_heap st !! l') /\
    (forall name, name ∈ names ->
                  isFunction rl (st_heap st) (get (st_heap st) l name) = true ->
                  adapted_member rl (st_heap st) (st_heap st') l o name) /\
    (forall name, name ∉ names \/
                  isFunction rl (st_heap st) (get (st_heap st) l name) = false ->
                  own (st_heap st') l name = own (st_heap st) l name).
Proof.
  induction names as [|name rest IH]; intros st Hnodup Hl Hvalid.
  - exists st. simpl. split; [reflexivity|]. split; [apply extends_refl|].
    split; [done|]. split; [|done]. intros name Hin. by apply elem_of_nil in Hin.
  - apply NoDup_cons in Hnodup as [Hnotin Hnodup].
    destruct (isFunction rl (st_heap st) (get (st_heap st) l name)) eqn:Hf.
    + rewrite promiseify_loop_callable by exact Hf.
      set (h := st_heap st) in *. set (h2 := wrapped_heap rl h l o name).
      assert (Hext : extends h h2) by (apply wrapped_heap_extends; done).
      assert (Hlen : length h2 = S (length h)) by (apply wrapped_heap_length; done).
      assert (Hget2 : forall name', name' <> name -> get h2 l name' = get h l name')
        by (intros name' Hne; by apply wrapped_heap_get_ne).
      destruct (IH (with_heap st h2)) as (st' & Hrun & Hext' & Hother & Hin & Hout);
        [exact Hnodup|simpl; lia| |].
      { intros name'. simpl. destruct (decide (name' = name)) as [->|Hne].
        - unfold h2. rewrite wrapped_heap_get by exact Hl. apply valid_lt.
          rewrite wrapped_heap_length by done. lia.
        - rewrite Hget2 by done. eapply valid_mono; [|apply Hvalid]. fold h. lia. }
      simpl in *. exists st'. split; [exact Hrun|]. split; [eauto using extends_trans|].
      split; [|split].
      * intros l' Hne Hl'. rewrite Hother by (auto; lia). by apply wrapped_heap_other.
      * intros name' Hin' Hf'. destruct (decide (name' = name)) as [->|Hne].
        -- exists (length h). split; [lia|].
           rewrite (Hout name) by (by left).
           split; [by apply wrapped_heap_member|].
           eapply code_of_extends; [exact Hext'|by apply wrapped_heap_wrapper].
        -- apply elem_of_cons in Hin' as [->|Hin']; [done|].
           destruct (Hin name' Hin') as (w & Hw & Hmem & Hcode).
           { rewrite Hget2 by done. rewrite (isFunction_extends rl h h2); auto. }
           exists w. rewrite Hget2 in Hcode by done. split; [lia|]. by split.
      * intros name' Hcase.
        assert (Hne : name' <> name).
        { intros ->. destruct Hcase as [Hnin|Hnf]; [|congruence].
          apply Hnin. left. }
        rewrite Hout; [by apply wrapped_heap_own_ne|].
        destruct Hcase as [Hnin|Hnf].
        -- left. intros Hin'. apply Hnin. by right.
        -- right. rewrite Hget2 by done. rewrite (isFunction_extends rl h h2); auto.
    + rewrite promiseify_loop_skip by exact Hf.
      destruct (IH st Hnodup Hl Hvalid) as (st' & Hrun & Hext' & Hother & Hin & Hout).
      exists st'. split; [exact Hrun|]. split; [exact Hext'|]. split; [exact Hother|].
      split.
      * intros name' Hin' Hf'. apply elem_of_cons in Hin' as [->|Hin']; [congruence|].
        by apply Hin.
      * intros name' Hcase. apply Hout. destruct Hcase as [Hnin|Hnf]; [left|by right].
        intros Hin'. apply Hnin. by right.
Qed.

Lemma include_loop_spec rl h l names : forall acc,
  NoDup acc ->
  exists tf,
    include_loop rl h (VRef l) names acc = Normal tf /\ NoDup tf /\
    forall name, name ∈ tf <->
                 name ∈ acc \/ (name ∈ names /\ isFunction rl h (get h l name) = true).
Proof.
  induction names as [|n rest IH]; intros acc Hacc; simpl.
  - exists acc. split; [reflexivity|]. split; [exact Hacc|].
    intros name. split; [by left|]. intros [Hin|[Hin _]]; [done|by apply elem_of_nil in Hin].
  - destruct (includes acc n) eqn:Hinc; simpl.
    + apply includes_true in Hinc.
      destruct (IH acc Hacc) as (tf & Hrun & Hnd & Hmem). exists tf.
      split; [exact Hrun|]. split; [exact Hnd|]. intros name. rewrite Hmem.
      split; [intros [Hin|[Hin Hf]]; [by left|right; split; [by right|done]]|].
      intros [Hin|[Hin Hf]]; [by left|].
      apply elem_of_cons in Hin as [->|Hin]; [by left|right; done].
    + apply includes_false in Hinc.
      destruct (isFunction rl h (get h l n)) eqn:Hf.
      * destruct (IH (acc ++ [n])) as (tf & Hrun & Hnd & Hmem).
        { apply NoDup_app. split; [exact Hacc|]. split; [|apply NoDup_singleton].
          intros x Hx Hx'. apply list_elem_of_singleton in Hx'. by subst. }
        exists tf. split; [exact Hrun|]. split; [exact Hnd|]. intros name. rewrite Hmem.
        rewrite elem_of_app, list_elem_of_singleton, elem_of_cons. split.
        -- intros [[Hin| ->]|[Hin Hf']]; [by left|right; split; [by left|done]|].
           right. split; [by right|done].
        -- intros [Hin|[[->|Hin] Hf']]; [by left; left|by left; right|by right].
      * destruct (IH acc Hacc) as (tf & Hrun & Hnd & Hmem). exists tf.
        split; [exact Hrun|]. split; [exact Hnd|]. intros name. rewrite Hmem, elem_of_cons.
        split; [intros [Hin|[Hin Hf']]; [by left|right; split; [by right|done]]|].
        intros [Hin|[[->|Hin] Hf']]; [by left|congruence|by right].
Qed.

Lemma exclude_loop_spec names : forall tf,
  (NoDup tf -> NoDup (exclude_loop names tf)) /\
  forall name, name ∈ exclude_loop names tf <-> name ∈ tf /\ name ∉ names.
Proof.
  unfold exclude_loop. induction names as [|n rest IH]; intros tf; simpl.
  - split; [done|]. intros name. split; [intros Hin; split; [done|]|by intros [Hin _]].
    intros Hnil. by apply elem_of_nil in Hnil.
  - destruct (IH (List.filter (fun candidate => negb (String.eqb candidate n)) tf))
      as [Hnd Hmem].
    split; [intros Htf; by apply Hnd, NoDup_List_filter|].
    intros name. rewrite Hmem, elem_of_List_filter, negb_true_iff, String.eqb_neq.
    rewrite not_elem_of_cons. tauto.
Qed.

Lemma NoDup_getAllFunctionNames rl h target : NoDup (getAllFunctionNames rl h target).
Proof.
  unfold getAllFunctionNames, sort. rewrite merge_sort_Permutation.
  destruct (truthy target && isObject h target); [|constructor].
  destruct target; try constructor. apply NoDup_collect_chain. constructor.
Qed.

(** The names lines 241-264 compute on an object: a list without
    repetition; a name that resolves to a callable is in it exactly when the
    options select it. *)
Lemma selection_list rl h l op :
  (forall names, only op = Some names -> NoDup names) ->
  exists names,
    match only op with
    | Some names => Normal names
    | None =>
        match
          match include op with
          | Some names => include_loop rl h (VRef l) names []
          | None => Normal (getAllFunctionNames rl h (VRef l))
          end
        with
        | Thrown e => Thrown e
        | Normal tf =>
            match exclude op with
            | Some names => Normal (exclude_loop names tf)
            | None => Normal tf
            end
        end
    end = Normal names /\
    NoDup names /\
    forall name, isFunction rl h (get h l name) = true ->
                 (name ∈ names <-> selects rl h l op name).
Proof.
  intros Honly. unfold selects. destruct (only op) as [names|].
  { exists names. split; [reflexivity|]. split; [by apply Honly|]. done. }
  assert (Hinc : exists tf,
            match include op with
            | Some names => include_loop rl h (VRef l) names []
            | None => Normal (getAllFunctionNames rl h (VRef l))
            end = Normal tf /\ NoDup tf /\
            forall name, isFunction rl h (get h l name) = true ->
                         (name ∈ tf <->
                          match include op with
                          | Some names => name ∈ names
                          | None => name ∈ getAllFunctionNames rl h (VRef l)
                          end)).
  { destruct (include op) as [inc|].
    - destruct (include_loop_spec rl h l inc [] (NoDup_nil_2)) as (tf & Hrun & Hnd & Hmem).
      exists tf. split; [exact Hrun|]. split; [exact Hnd|].
      intros name Hf. rewrite Hmem. split.
      + intros [Hnil|[Hin _]]; [by apply elem_of_nil in Hnil|done].
      + intros Hin. right. by split.
    - eexists. split; [reflexivity|]. split; [apply NoDup_getAllFunctionNames|]. done. }
  destruct Hinc as (tf & -> & Hnd & Hmem).
  destruct (exclude op) as [exc|].
  - destruct (exclude_loop_spec exc tf) as [Hnd' Hmem'].
    exists (exclude_loop exc tf). split; [reflexivity|]. split; [by apply Hnd'|].
    intros name Hf. rewrite Hmem', (Hmem name Hf). done.
  - exists tf. split; [reflexivity|]. split; [exact Hnd|].
    intros name Hf. rewrite (Hmem name Hf). tauto.
Qed.

(** doPromiseify on an object: it returns the object; a name that resolves
    to a callable and that the options select is adapted, once, around the
    value it had; every other name, and every other object, is as it was. *)
Lemma doPromiseify_object_selection rl st l o op context :
  st_opts st !! o = Some op ->
  (forall names, only op = Some names -> NoDup names) ->
  isFunction rl (st_heap st) (VRef l) = false ->
  isObject (st_heap st) (VRef l) = true ->
  l < length (st_heap st) ->
  heap_closed (st_heap st) = true ->
  exists st',
    doPromiseify rl st (VRef l) (Some o) context = (st', Normal (VRef l)) /\
    (forall l', l' <> l -> l' < length (st_heap st) ->
                st_heap st' !! l' = st_heap st !! l') /\
    forall name,
      (isFunction rl (st_heap st) (get (st_heap st) l name) = true ->
       selects rl (st_heap st) l op name ->
       adapted_member rl (st_heap st) (st_heap st') l o name) /\
      (isFunction rl (st_heap st) (get (st_heap st) l name) = false \/
       ~ selects rl (st_heap st) l op name ->
       own (st_heap st') l name = own (st_heap st) l name /\
       get (st_heap st') l name = get (st_heap st) l name).
Proof.
  intros Hop Honly Hfun Hobj Hl Hclosed.
  destruct (selection_list rl (st_heap st) l op Honly) as (names & Hsel & Hnd & Hmem).
  unfold doPromiseify. simpl normalize_options. cbv iota beta.
  rewrite Hfun, Hobj, Hop. simpl default. cbv zeta. rewrite Hsel.
  destruct (promiseify_loop_nodup rl o l names st Hnd Hl)
    as (st' & Hrun & Hext & Hother & Hin & Hout).
  { intros name. by apply get_valid. }
  rewrite Hrun. exists st'. split; [reflexivity|]. split; [exact Hother|].
  intros name. split.
  - intros Hf Hselects. apply Hin; [|exact Hf]. by apply Hmem.
  - intros Hcase.
    assert (Hown : own (st_heap st') l name = own (st_heap st) l name).
    { apply Hout. destruct Hcase as [Hnf|Hns]; [by right|].
      destruct (isFunction rl (st_heap st) (get (st_heap st) l name)) eqn:Hf; [|by right].
      left. intros Hin'. apply Hns. by apply Hmem. }
    split; [exact Hown|].
    apply get_frame; [exact Hext|exact Hl|].
    intros a Ha. destruct (decide (a = l)) as [->|Hne]; [exact Hown|].
    unfold own. rewrite Hother by (auto; lia). reflexivity.
Qed.

Lemma lookup_chain_hit h ls name :
  lookup_chain h ls name <> VUndefined ->
  exists a, a ∈ ls /\ own h a name = Some (lookup_chain h ls name).
Proof.
  induction ls as [|a ls IH]; simpl; [done|].
  destruct (own h a name) as [v|] eqn:Hown.
  - intros _. exists a. split; [left|exact Hown].
  - intros Hne. destruct (IH Hne) as (b & Hb & Hownb). exists b. split; [by right|done].
Qed.

(** A name that resolves to a callable is a function name of the object
    exactly when Object.prototype has no property of that name. *)
Lemma callable_member_is_function_name rl h l name :
  isObject h (VRef l) = true ->
  isFunction rl h (get h l name) = true ->
  name ∈ getAllFunctionNames rl h (VRef l) <-> name ∉ OBJECT_PROTOTYPE_FUNCTION_NAMES rl.
Proof.
  intros Hobj Hf. unfold getAllFunctionNames, sort. simpl truthy. rewrite Hobj. simpl andb.
  cbv iota. rewrite merge_sort_Permutation, elem_of_collect_chain. unfold contributes.
  split.
  - intros [Hnil|(a & _ & Hn & _)]; [by apply elem_of_nil in Hnil|exact Hn].
  - intros Hn. right.
    destruct (lookup_chain_hit h (proto_chain h l) name) as (a & Ha & Hown).
    { fold (get h l name). destruct (isFunction_ref _ _ _ Hf) as [x ->]. discriminate. }
    exists a. split; [exact Ha|]. split; [exact Hn|]. eauto.
Qed.

(** X2: adapting an object without only and without include (in
    particular with no options at all) adapts every member that resolves to
    a callable, inherited ones included, whose name is not a property name
    of Object.prototype and is not listed in exclude: the object gets an
    own property of that name, a new function that is the adaptation of the
    value the name had, bound to the object.  Every other name reads as
    before, every other object is untouched, and the object is returned. *)
Theorem adapt_object_default rl st l opts op context :
  match opts with
  | Some o => st_opts st !! o = Some op
  | None => op = empty_options
  end ->
  only op = None -> include op = None ->
  isFunction rl (st_heap st) (VRef l) = false ->
  isObject (st_heap st) (VRef l) = true ->
  l < length (st_heap st) ->
  heap_closed (st_heap st) = true ->
  let h := st_heap st in
  let o := default (length (st_opts st)) opts in
  let excluded name := match exclude op with
                       | Some names => name ∈ names
                       | None => False
                       end in
  exists st',
    doPromiseify rl st (VRef l) opts context = (st', Normal (VRef l)) /\
    (forall l', l' <> l -> l' < length h -> st_heap st' !! l' = h !! l') /\
    forall name,
      (isFunction rl h (get h l name) = true ->
       name ∉ OBJECT_PROTOTYPE_FUNCTION_NAMES rl -> ~ excluded name ->
       adapted_member rl h (st_heap st') l o name) /\
      (isFunction rl h (get h l name) = false \/
       name ∈ OBJECT_PROTOTYPE_FUNCTION_NAMES rl \/ excluded name ->
       own (st_heap st') l name = own h l name /\
       get (st_heap st') l name = get h l name).
Proof.
  intros Hopts Honly Hinc Hfun Hobj Hl Hclosed h o excluded.
  set (st1 := match opts with
              | Some _ => st
              | None => State (st_heap st) (st_opts st ++ [empty_options]) (st_trace st)
              end).
  assert (Heq : doPromiseify rl st (VRef l) opts context =
                doPromiseify rl st1 (VRef l) (Some o) context)
    by (subst st1 o; by destruct opts).
  assert (Hop1 : st_opts st1 !! o = Some op).
  { subst st1 o. destruct opts as [o|]; simpl; [exact Hopts|]. subst op.
    rewrite lookup_app_r by lia. by rewrite Nat.sub_diag. }
  assert (Hh1 : st_heap st1 = h) by (subst st1; by destruct opts).
  destruct (doPromiseify_object_selection rl st1 l o op context Hop1)
    as (st' & Hrun & Hother & Hnames); rewrite ?Hh1; auto.
  { intros names Hn. congruence. }
  rewrite Hh1 in Hother, Hnames.
  exists st'. split; [by rewrite Heq|]. split; [exact Hother|].
  assert (Hsel : forall name, isFunction rl h (get h l name) = true ->
            (selects rl h l op name <->
             (name ∉ OBJECT_PROTOTYPE_FUNCTION_NAMES rl) /\ ~ excluded name)).
  { intros name Hf. unfold selects, excluded. rewrite Honly, Hinc.
    rewrite (callable_member_is_function_name rl h l name Hobj Hf).
    destruct (exclude op); tauto. }
  intros name. destruct (Hnames name) as [Hadapt Hsame]. split.
  - intros Hf Hobjname Hexc. apply Hadapt; [exact Hf|]. by apply Hsel.
  - intros Hcase. apply Hsame.
    destruct (isFunction rl h (get h l name)) eqn:Hf; [right|by left].
    rewrite (Hsel name Hf). destruct Hcase as [Hc|[Hc|Hc]]; [done|tauto|tauto].
Qed.

Lemma adapt_object_default_witness :
  exists st',
    doPromiseify Demo.rl Demo.st0 Demo.manager None VNull = (st', Normal Demo.manager) /\
    (forall l', l' <> 8 -> l' < length Demo.h0 -> st_heap st' !! l' = Demo.h0 !! l') /\
    forall name,
      (isFunction Demo.rl Demo.h0 (get Demo.h0 8 name) = true ->
       name ∉ Demo.object_names -> ~ False ->
       adapted_member Demo.rl Demo.h0 (st_heap st') 8 0 name) /\
      (isFunction Demo.rl Demo.h0 (get Demo.h0 8 name) = false \/
       name ∈ Demo.object_names \/ False ->
       own (st_heap st') 8 name = own Demo.h0 8 name /\
       get (st_heap st') 8 name = get Demo.h0 8 name).
Proof.
  apply (adapt_object_default Demo.rl Demo.st0 8 None empty_options VNull);
    first [ reflexivity | simpl; lia | vm_compute; reflexivity ].
Defined.

(** X3: adapting an object with include and without only adapts exactly
    the names of include that resolve to a callable and that exclude does
    not list, names of Object.prototype's properties included; a name that
    is not in include, or is in exclude, or does not resolve to a callable,
    reads as before. *)
Theorem adapt_object_include rl st l o op names context :
  st_opts st !! o = Some op ->
  only op = None -> include op = Some names ->
  isFunction rl (st_heap st) (VRef l) = false ->
  isObject (st_heap st) (VRef l) = true ->
  l < length (st_heap st) ->
  heap_closed (st_heap st) = true ->
  let h := st_heap st in
  let excluded name := match exclude op with
                       | Some excl => name ∈ excl
                       | None => False
                       end in
  exists st',
    doPromiseify rl st (VRef l) (Some o) context = (st', Normal (VRef l)) /\
    forall name,
      (isFunction rl h (get h l name) = true -> name ∈ names -> ~ excluded name ->
       adapted_member rl h (st_heap st') l o name) /\
      (isFunction rl h (get h l name) = false \/ name ∉ names \/ excluded name ->
       own (st_heap st') l name = own h l name /\
       get (st_heap st') l name = get h l name).
Proof.
  intros Hop Honly Hinc Hfun Hobj Hl Hclosed h excluded.
  destruct (doPromiseify_object_selection rl st l o op context Hop)
    as (st' & Hrun & _ & Hnames); auto.
  { intros ns Hn. congruence. }
  exists st'. split; [exact Hrun|].
  assert (Hsel : forall name, selects rl h l op name <-> name ∈ names /\ ~ excluded name).
  { intros name. unfold selects, excluded. rewrite Honly, Hinc.
    destruct (exclude op); tauto. }
  intros name. destruct (Hnames name) as [Hadapt Hsame]. split.
  - intros Hf Hin Hexc. apply Hadapt; [exact Hf|]. by apply Hsel.
  - intros Hcase. apply Hsame. fold h. rewrite Hsel.
    destruct Hcase as [Hc|[Hc|Hc]]; [by left|right; tauto|right; tauto].
Qed.

Lemma adapt_object_include_witness :
  exists st',
    doPromiseify Demo.rl Cases.st_include Demo.manager (Some 0) VNull =
      (st', Normal Demo.manager) /\
    forall name,
      (isFunction Demo.rl Demo.h0 (get Demo.h0 8 name) = true ->
       name ∈ ["load"; "toString"; "version"; "load"] ->
       ~ name ∈ ["save"; "toString"] ->
       adapted_member Demo.rl Demo.h0 (st_heap st') 8 0 name) /\
      (isFunction Demo.rl Demo.h0 (get Demo.h0 8 name) = false \/
       name ∉ ["load"; "toString"; "version"; "load"] \/ name ∈ ["save"; "toString"] ->
       own (st_heap st') 8 name = own Demo.h0 8 name /\
       get (st_heap st') 8 name = get Demo.h0 8 name).
Proof.
  apply (adapt_object_include Demo.rl Cases.st_include 8 0
           (Options None (Some ["load"; "toString"; "version"; "load"])
                    (Some ["save"; "toString"]) VUndefined)
           ["load"; "toString"; "version"; "load"] VNull);
    first [ reflexivity | simpl; lia | vm_compute; reflexivity ].
Defined.

(** The loop of lines 267-271 reads the heap and nothing else. *)
Lemma promiseify_loop_heap_only rl o target names : forall st st2,
  st_heap st2 = st_heap st ->
  st_heap (promiseify_loop rl st2 target o names).1 =
  st_heap (promiseify_loop rl st target o names).1 /\
  (promiseify_loop rl st2 target o names).2 = (promiseify_loop rl st target o names).2.
Proof.
  induction names as [|name rest IH]; intros st st2 Hh; [by split|].
  destruct (read_prop (st_heap st) target name) as [v|e] eqn:Hread.
  2:{ simpl. rewrite Hh, Hread. by split. }
  destruct (isFunction rl (st_heap st) v) eqn:Hf.
  2:{ simpl. rewrite Hh, Hread, Hf. by apply IH. }
  rewrite (promiseify_loop_step rl st target o name rest v Hread Hf).
  rewrite (promiseify_loop_step rl st2 target o name rest v) by (by rewrite Hh).
  apply IH. unfold member_wrapped. rewrite Hh. by destruct target.
Qed.

(** X4: when only is given, include and exclude are not read: two option
    records with the same only list give the same heap and the same
    result, whatever their include and exclude lists are. *)
Theorem only_overrides_include_exclude rl st st2 target o op op2 names context :
  st_heap st2 = st_heap st ->
  st_opts st !! o = Some op -> st_opts st2 !! o = Some op2 ->
  only op = Some names -> only op2 = Some names ->
  st_heap (doPromiseify rl st2 target (Some o) context).1 =
  st_heap (doPromiseify rl st target (Some o) context).1 /\
  (doPromiseify rl st2 target (Some o) context).2 =
  (doPromiseify rl st target (Some o) context).2.
Proof.
  intros Hh Hop Hop2 Honly Honly2. unfold doPromiseify. simpl normalize_options.
  cbv iota beta. rewrite Hh, Hop, Hop2. simpl default. cbv zeta. rewrite Honly, Honly2.
  destruct (isFunction rl (st_heap st) target).
  { simpl. rewrite Hh. by split. }
  destruct (isObject (st_heap st) target); [|simpl; by split].
  destruct (promiseify_loop_heap_only rl o target names st st2 Hh) as [Hheap Hres].
  destruct (promiseify_loop rl st2 target o names) as [s2 [u2|e2]],
           (promiseify_loop rl st target o names) as [s1 [u1|e1]];
    simpl in *; try discriminate; split; congruence.
Qed.

Lemma only_overrides_include_exclude_witness :
  st_heap (doPromiseify Demo.rl Cases.st_only_and_more Demo.manager (Some 0) VNull).1 =
  st_heap (doPromiseify Demo.rl Demo.st_only Demo.manager (Some 0) VNull).1 /\
  (doPromiseify Demo.rl Cases.st_only_and_more Demo.manager (Some 0) VNull).2 =
  (doPromiseify Demo.rl Demo.st_only Demo.manager (Some 0) VNull).2.
Proof.
  apply (only_overrides_include_exclude Demo.rl Demo.st_only Cases.st_only_and_more
           Demo.manager 0
           (Options (Some ["save"]) None None VUndefined)
           (Options (Some ["save"]) (Some ["load"]) (Some ["save"]) VUndefined)
           ["save"] VNull); reflexivity.
Defined.

(** ** Adapting twice *)

Lemma doPromiseify_only_one rl st l o op name context :
  st_opts st !! o = Some op -> only op = Some [name] ->
  isFunction rl (st_heap st) (VRef l) = false ->
  isObject (st_heap st) (VRef l) = true ->
  isFunction rl (st_heap st) (get (st_heap st) l name) = true ->
  doPromiseify rl st (VRef l) (Some o) context =
    (with_heap st (wrapped_heap rl (st_heap st) l o name), Normal (VRef l)).
Proof.
  intros Hop Honly Hfun Hobj Hf.
  rewrite (doPromiseify_only rl st l o op [name]) by assumption.
  rewrite promiseify_loop_callable by exact Hf. reflexivity.
Qed.

Lemma callable_member_in_heap rl h l name :
  isFunction rl h (get h l name) = true -> l < length h.
Proof.
  intros Hf. destruct (decide (l < length h)) as [|Hge]; [done|].
  assert (Hnone : h !! l = None) by (apply lookup_ge_None_2; lia).
  unfold get, proto_chain, chain_from, getPrototypeOf in Hf.
  rewrite Hnone in Hf. simpl in Hf. unfold own in Hf. rewrite Hnone in Hf. discriminate.
Qed.

(** X5: re-adaptation is not guarded.  Adapting an object with
    only: [name] and then adapting the result again with the same options
    leaves, under that name, the adaptation of the adaptation: a second new
    function whose original is the function the first adaptation put
    there, which in turn wraps the value the name had at first. *)
Theorem readapt_wraps_the_wrapper rl st l o op name context :
  st_opts st !! o = Some op -> only op = Some [name] ->
  isFunction rl (st_heap st) (VRef l) = false ->
  isObject (st_heap st) (VRef l) = true ->
  isFunction rl (st_heap st) (get (st_heap st) l name) = true ->
  let h := st_heap st in
  let once := doPromiseify rl st (VRef l) (Some o) context in
  let twice := doPromiseify rl once.1 (VRef l) (Some o) context in
  once.2 = Normal (VRef l) /\ twice.2 = Normal (VRef l) /\
  get (st_heap once.1) l name = VRef (length h) /\
  get (st_heap twice.1) l name = VRef (S (length h)) /\
  code_of (st_heap twice.1) (VRef (S (length h))) =
    Some (Promiseified (VRef (length h)) o (VRef l)) /\
  code_of (st_heap twice.1) (VRef (length h)) =
    Some (Promiseified (get h l name) o (VRef l)).
Proof.
  intros Hop Honly Hfun Hobj Hf h once twice.
  assert (Hl : l < length h) by (by eapply callable_member_in_heap).
  assert (Honce : once = (with_heap st (wrapped_heap rl h l o name), Normal (VRef l)))
    by (by eapply doPromiseify_only_one).
  set (h1 := wrapped_heap rl h l o name) in *.
  assert (Hext : extends h h1) by (apply wrapped_heap_extends; done).
  assert (Hlen : length h1 = S (length h)) by (apply wrapped_heap_length; done).
  assert (Hget1 : get h1 l name = VRef (length h)) by (by apply wrapped_heap_get).
  assert (Hcode1 : code_of h1 (VRef (length h)) = Some (Promiseified (get h l name) o (VRef l)))
    by (by apply wrapped_heap_wrapper).
  assert (Htwice : twice = (with_heap (with_heap st h1) (wrapped_heap rl h1 l o name),
                            Normal (VRef l))).
  { subst twice. rewrite Honce. simpl fst.
    eapply doPromiseify_only_one; simpl; eauto.
    - rewrite (isFunction_extends rl h h1); auto. by apply valid_lt.
    - rewrite (isObject_extends h h1); auto. by apply valid_lt.
    - rewrite Hget1. by eapply code_of_isFunction. }
  rewrite Honce, Htwice. cbn [fst snd with_heap st_heap].
  assert (Hl1 : l < length h1) by lia.
  split; [reflexivity|]. split; [reflexivity|]. split; [exact Hget1|].
  split; [|split].
  - rewrite wrapped_heap_get by exact Hl1. by rewrite Hlen.
  - rewrite <- Hlen, <- Hget1. by apply wrapped_heap_wrapper.
  - eapply code_of_extends; [|exact Hcode1]. by apply wrapped_heap_extends.
Qed.

Lemma readapt_wraps_the_wrapper_witness :
  let once := doPromiseify Demo.rl Demo.st_only Demo.manager (Some 0) VNull in
  let twice := doPromiseify Demo.rl once.1 Demo.manager (Some 0) VNull in
  once.2 = Normal Demo.manager /\ twice.2 = Normal Demo.manager /\
  get (st_heap once.1) 8 "save" = VRef 16 /\
  get (st_heap twice.1) 8 "save" = VRef 17 /\
  code_of (st_heap twice.1) (VRef 17) = Some (Promiseified (VRef 16) 0 Demo.manager) /\
  code_of (st_heap twice.1) (VRef 16) =
    Some (Promiseified (get Demo.h0 8 "save") 0 Demo.manager).
Proof.
  apply (readapt_wraps_the_wrapper Demo.rl Demo.st_only 8 0
           (Options (Some ["save"]) None None VUndefined) "save" VNull);
    vm_compute; reflexivity.
Defined.

(** ** The null target *)

Lemma exclude_loop_nil names : exclude_loop names [] = [].
Proof. unfold exclude_loop. induction names as [|n rest IH]; simpl; auto. Qed.

Lemma normalize_options_record st opts op :
  match opts with Some o => st_opts st !! o = Some op | None => op = empty_options end ->
  st_opts (normalize_options st opts).1 !! (normalize_options st opts).2 = Some op.
Proof.
  destruct opts as [o|]; simpl; [done|]. intros ->.
  rewrite lookup_app_r by lia. by rewrite Nat.sub_diag.
Qed.

(** X6: null is typeof object, so it takes the object branch.  With no
    name to read (neither only nor, failing that, include lists one) the
    adapter returns null and changes nothing; with a first name listed, the
    property read of line 251 or 268 throws a TypeError, not the module's
    own "Cannot promiseify type" message.  exclude plays no part. *)
Theorem adapt_null rl st opts op context :
  match opts with Some o => st_opts st !! o = Some op | None => op = empty_options end ->
  doPromiseify rl st VNull opts context =
    ((normalize_options st opts).1,
     match (match only op with Some names => names | None => default [] (include op) end) with
     | [] => Normal VNull
     | _ :: _ => Thrown TypeError
     end).
Proof.
  intros Hop. apply normalize_options_record in Hop.
  unfold doPromiseify. destruct (normalize_options st opts) as [st1 o]. simpl in Hop |- *.
  rewrite Hop. simpl.
  destruct (only op) as [[|n ns]|]; [reflexivity|reflexivity|].
  destruct (include op) as [[|n ns]|]; simpl.
  - destruct (exclude op); simpl; [rewrite exclude_loop_nil|]; reflexivity.
  - reflexivity.
  - change (getAllFunctionNames rl (st_heap st1) VNull) with (@nil string).
    destruct (exclude op); simpl; [rewrite exclude_loop_nil|]; reflexivity.
Qed.

Lemma adapt_null_witness :
  doPromiseify Demo.rl Cases.st_include VNull (Some 0) VNull =
    (Cases.st_include, Thrown TypeError).
Proof.
  apply (adapt_null Demo.rl Cases.st_include (Some 0)
           (Options None (Some ["load"; "toString"; "version"; "load"])
                    (Some ["save"; "toString"]) VUndefined) VNull).
  reflexivity.
Defined.

(** ** Objects that inherit from Function.prototype *)




(** ** A redirector supplied by the caller *)

Lemma ensure_redirector_truthy rl st o s op :
  st_opts st !! o = Some op -> truthy (outcomeRedirector op) = true ->
  ensure_redirector rl st o s = st.
Proof. intros Hop Ht. unfold ensure_redirector. by rewrite Hop, Ht. Qed.

Lemma fire_with_redirector rl st s p o sH fH R op :
  st_opts st !! o = Some op -> truthy (outcomeRedirector op) = true ->
  fire rl st s p o sH fH R =
    match execute rl st ERedirector (outcomeRedirector op) R VUndefined with
    | (st2, Thrown e) => (st2, Thrown e)
    | (st2, Normal v) =>
        if truthy v then executeSuccess rl st2 p sH R else executeFailure rl st2 p fH R
    end.
Proof.
  intros Hop Ht. rewrite fire_unfold.
  rewrite (ensure_redirector_truthy rl st o s op Hop Ht). by rewrite Hop.
Qed.

Lemma execute_not_callable rl st site fn args context :
  isFunction rl (st_heap st) fn = false ->
  execute rl st site fn args context = (st, Normal VNull).
Proof. intros Hf. unfold execute. by rewrite Hf. Qed.

Lemma executeSuccess_promise_state rl st p fn args s0 st' res :
  promise_state (st_heap st) p = Some s0 ->
  executeSuccess rl st p fn args = (st', res) ->
  promise_state (st_heap st') p =
    Some match res, s0 with
         | Normal _, Pending => Fulfilled (PArgs args)
         | _, _ => s0
         end.
Proof.
  intros Hp. unfold executeSuccess.
  pose proof (execute_promise_state rl st EHandler fn args VUndefined p s0 Hp) as Hp1.
  destruct (execute rl st EHandler fn args VUndefined) as [st1 [u|e]]; simpl in Hp1;
    intros [= <- <-]; [|exact Hp1].
  simpl. rewrite promise_state_settle, Hp1. by destruct s0.
Qed.

Lemma executeFailure_promise_state rl st p fn args s0 st' res :
  promise_state (st_heap st) p = Some s0 ->
  executeFailure rl st p fn args = (st', res) ->
  promise_state (st_heap st') p =
    Some match res, s0 with
         | Normal _, Pending => Rejected (PArgs args)
         | _, _ => s0
         end.
Proof.
  intros Hp. unfold executeFailure.
  pose proof (execute_promise_state rl st EHandler fn args VUndefined p s0 Hp) as Hp1.
  destruct (execute rl st EHandler fn args VUndefined) as [st1 [u|e]]; simpl in Hp1;
    intros [= <- <-]; [|exact Hp1].
  simpl. rewrite promise_state_settle, Hp1. by destruct s0.
Qed.

(** X8: an outcomeRedirector that is truthy but not callable (a string, a
    number, true, a plain object) turns every outcome into a failure:
    execute returns null for it (line 44), so whichever injected handler is
    called runs executeFailure, and a pending promise is rejected with the
    result arguments. *)
Theorem non_callable_redirector_always_fails rl st s p o sH fH R op :
  st_opts st !! o = Some op -> truthy (outcomeRedirector op) = true ->
  isFunction rl (st_heap st) (outcomeRedirector op) = false ->
  fire rl st s p o sH fH R = executeFailure rl st p fH R /\
  forall s0 st' res,
    promise_state (st_heap st) p = Some s0 ->
    fire rl st s p o sH fH R = (st', res) ->
    promise_state (st_heap st') p =
      Some match res, s0 with
           | Normal _, Pending => Rejected (PArgs R)
           | _, _ => s0
           end.
Proof.
  intros Hop Ht Hf.
  assert (Heq : fire rl st s p o sH fH R = executeFailure rl st p fH R).
  { rewrite (fire_with_redirector rl st s p o sH fH R op Hop Ht).
    by rewrite execute_not_callable. }
  split; [exact Heq|]. intros s0 st' res Hp. rewrite Heq.
  by apply executeFailure_promise_state.
Qed.

Lemma non_callable_redirector_always_fails_witness :
  fire Demo.rl Cases.st_string_redirector OnSuccess 16 0 VUndefined VUndefined [VNum 1] =
    executeFailure Demo.rl Cases.st_string_redirector 16 VUndefined [VNum 1] /\
  forall s0 st' res,
    promise_state (st_heap Cases.st_string_redirector) 16 = Some s0 ->
    fire Demo.rl Cases.st_string_redirector OnSuccess 16 0 VUndefined VUndefined [VNum 1] =
      (st', res) ->
    promise_state (st_heap st') 16 =
      Some match res, s0 with
           | Normal _, Pending => Rejected (PArgs [VNum 1])
           | _, _ => s0
           end.
Proof.
  apply (non_callable_redirector_always_fails Demo.rl Cases.st_string_redirector OnSuccess
           16 0 VUndefined VUndefined [VNum 1] (Options None None None (VStr "yes")));
    reflexivity.
Defined.

Lemma execute_host rl st site fn args context id :
  code_of (st_heap st) fn = Some (Foreign id) ->
  exists st2 this,
    execute rl st site fn args context =
      (st2, run_leaf (host rl id st2 this args)) /\
    st_trace st2 = st_trace st ++ [site fn args].
Proof.
  intros Hc. unfold execute. rewrite (code_of_isFunction rl _ _ _ Hc).
  destruct (truthy context).
  - exists (log st (site fn args)), context. split; [|reflexivity].
    f_equal. unfold apply_leaf. simpl st_heap. by rewrite Hc.
  - unfold alloc.
    exists (log (with_heap st (st_heap st ++ [Object KObject ∅ (Some (Object_prototype rl))]))
                (site fn args)), (VRef (length (st_heap st))).
    split; [|reflexivity]. f_equal. unfold apply_leaf. simpl st_heap.
    by rewrite (code_of_extends _ _ _ _ (extends_alloc _ _) Hc).
Qed.

(** X9: a callable redirector supplied by the caller decides the outcome,
    whichever injected handler the original calls.  Here the redirector is
    a host function whose answer on the result arguments R is v in every
    state: a handler that runs to its end settles a pending promise as
    fulfilled with R when v is truthy and as rejected with R otherwise; a
    settled promise stays as it is, and a handler cut short by a throwing
    user handler settles nothing. *)
Theorem user_redirector_decides rl st s p o sH fH R op id v s0 st' res :
  st_opts st !! o = Some op ->
  code_of (st_heap st) (outcomeRedirector op) = Some (Foreign id) ->
  (forall st1 this, run_leaf (host rl id st1 this R) = Normal v) ->
  promise_state (st_heap st) p = Some s0 ->
  fire rl st s p o sH fH R = (st', res) ->
  promise_state (st_heap st') p =
    Some match res, s0 with
         | Normal _, Pending => if truthy v then Fulfilled (PArgs R) else Rejected (PArgs R)
         | _, _ => s0
         end.
Proof.
  intros Hop Hc Hpure Hp.
  assert (Ht : truthy (outcomeRedirector op) = true).
  { apply (isFunction_truthy rl (st_heap st)). exact (code_of_isFunction rl _ _ _ Hc). }
  rewrite (fire_with_redirector rl st s p o sH fH R op Hop Ht).
  pose proof (execute_promise_state rl st ERedirector (outcomeRedirector op) R VUndefined
                p s0 Hp) as Hp2.
  destruct (execute_host rl st ERedirector (outcomeRedirector op) R VUndefined id Hc)
    as (st2 & this & Hex & _).
  rewrite Hex in Hp2 |- *. rewrite Hpure. simpl in Hp2.
  destruct (truthy v).
  - intros Hs. rewrite (executeSuccess_promise_state rl st2 p sH R s0 st' res Hp2 Hs).
    by destruct res, s0.
  - intros Hf. rewrite (executeFailure_promise_state rl st2 p fH R s0 st' res Hp2 Hf).
    by destruct res, s0.
Qed.

Lemma user_redirector_decides_witness :
  promise_state
    (st_heap (fire Demo.rl Cases.st_user_redirector OnSuccess 16 0 VUndefined VUndefined
                   [VNum 1]).1) 16
  = Some (Rejected (PArgs [VNum 1])).
Proof.
  apply (user_redirector_decides Demo.rl Cases.st_user_redirector OnSuccess 16 0
           VUndefined VUndefined [VNum 1] (Options None None None (VRef 4)) 0 VUndefined
           Pending _ (Normal tt)); reflexivity.
Defined.

(** X10: a redirector that throws makes the injected handler throw the
    same value: neither of the caller's handlers is called, and no promise
    changes state. *)
Theorem throwing_redirector_propagates rl st s p o sH fH R op id e :
  st_opts st !! o = Some op ->
  code_of (st_heap st) (outcomeRedirector op) = Some (Foreign id) ->
  (forall st1 this, run_leaf (host rl id st1 this R) = Thrown e) ->
  exists st',
    fire rl st s p o sH fH R = (st', Thrown e) /\
    st_trace st' = st_trace st ++ [ERedirector (outcomeRedirector op) R] /\
    st_opts st' = st_opts st /\
    forall q s0, promise_state (st_heap st) q = Some s0 ->
                 promise_state (st_heap st') q = Some s0.
Proof.
  intros Hop Hc Hthrow.
  assert (Ht : truthy (outcomeRedirector op) = true).
  { apply (isFunction_truthy rl (st_heap st)). exact (code_of_isFunction rl _ _ _ Hc). }
  rewrite (fire_with_redirector rl st s p o sH fH R op Hop Ht).
  pose proof (execute_opts rl st ERedirector (outcomeRedirector op) R VUndefined) as Hopts.
  pose proof (fun q s0 => execute_promise_state rl st ERedirector (outcomeRedirector op) R
                            VUndefined q s0) as Hps.
  destruct (execute_host rl st ERedirector (outcomeRedirector op) R VUndefined id Hc)
    as (st2 & this & Hex & Htr).
  rewrite Hex in Hopts, Hps |- *. rewrite Hthrow. simpl in Hopts, Hps.
  exists st2. repeat split; auto.
Qed.

Lemma throwing_redirector_propagates_witness :
  exists st',
    fire Demo.rl Cases.st_throwing_redirector OnError 16 0 VUndefined VUndefined [VNum 1] =
      (st', Thrown (ThrowValue (VStr "handler"))) /\
    st_trace st' = [ERedirector (VRef 14) [VNum 1]] /\
    st_opts st' = st_opts Cases.st_throwing_redirector /\
    forall q s0, promise_state (st_heap Cases.st_throwing_redirector) q = Some s0 ->
                 promise_state (st_heap st') q = Some s0.
Proof.
  apply (throwing_redirector_propagates Demo.rl Cases.st_throwing_redirector OnError 16 0
           VUndefined VUndefined [VNum 1] (Options None None None (VRef 14)) 7
           (ThrowValue (VStr "handler"))); reflexivity.
Defined.

(** ** Which of the caller's handlers runs *)








(** ** A call whose original reports through a callback *)

Lemma separate_handlers rl h A :
  let sep := separate rl h A in
  (successHandler sep = VUndefined \/ isFunction rl h (successHandler sep) = true) /\
  (failureHandler sep = VUndefined \/ isFunction rl h (failureHandler sep) = true).
Proof.
  unfold separate. destruct (Z.of_nat (length A) =? 1)%Z.
  - destruct (isFunction rl h (arg A 0)) eqn:H0; simpl; auto.
  - destruct (isFunction rl h (arg A (Z.of_nat (length A) - 1))) eqn:H1;
      destruct (isFunction rl h (arg A (Z.of_nat (length A) - 2))) eqn:H2; simpl; auto.
Qed.

(** With no redirector in the record, lines 216 and 228 create the default
    one, store it, and call it: the slot decides which of executeSuccess and
    executeFailure runs. *)
Lemma fire_default_unfold rl st s p o sH fH R op :
  st_opts st !! o = Some op -> truthy (outcomeRedirector op) = false ->
  let h := st_heap st in
  let h2 := (h ++ [Object (KFunction (default_redirector s)) ∅ (Some (Function_prototype rl))])
              ++ [Object KObject ∅ (Some (Object_prototype rl))] in
  let st2 := State h2 (<[o := set_redirector op (VRef (length h))]> (st_opts st))
                   (st_trace st ++ [ERedirector (VRef (length h)) R]) in
  fire rl st s p o sH fH R =
    match s with
    | OnSuccess => executeSuccess rl st2 p sH R
    | OnError => executeFailure rl st2 p fH R
    end.
Proof.
  intros Hop Hfalsy h h2 st2. rewrite fire_unfold.
  unfold ensure_redirector. rewrite Hop, Hfalsy. unfold alloc. simpl.
  rewrite list_lookup_insert_eq by (by eapply lookup_lt_Some). simpl.
  set (h1 := st_heap st ++ [Object (KFunction (default_redirector s)) ∅
                                   (Some (Function_prototype rl))]).
  assert (Hr : code_of h1 (VRef (length (st_heap st))) = Some (default_redirector s)).
  { simpl. unfold h1. rewrite lookup_app_r by lia. by rewrite Nat.sub_diag. }
  unfold execute at 1. simpl st_heap.
  rewrite (code_of_isFunction rl _ _ _ Hr). simpl.
  unfold apply_leaf. simpl st_heap.
  rewrite (code_of_extends _ _ _ _ (extends_alloc _ _) Hr).
  by destruct s.
Qed.

Lemma executeSuccess_thrown rl st p fn args st' e :
  executeSuccess rl st p fn args = (st', Thrown e) -> isFunction rl (st_heap st) fn = true.
Proof.
  unfold executeSuccess, execute. destruct (isFunction rl (st_heap st) fn); [done|].
  discriminate.
Qed.

Lemma executeFailure_thrown rl st p fn args st' e :
  executeFailure rl st p fn args = (st', Thrown e) -> isFunction rl (st_heap st) fn = true.
Proof.
  unfold executeFailure, execute. destruct (isFunction rl (st_heap st) fn); [done|].
  discriminate.
Qed.

(** X12: the ordinary callback protocol, end to end, with no redirector
    configured.  The original is a host function that, entered by line 235,
    calls the injected handler of one slot with R and returns.  The adapted
    call then returns its promise, and the promise is fulfilled with R when
    the slot is the success one and rejected with R when it is the failure
    one.  The one exception is a handler of the caller that throws e: it is
    callable, and the promise is rejected with e instead. *)
Theorem callback_then_return rl st target o op context A id s R u :
  let h := st_heap st in
  let sep := separate rl h A in
  code_of h target = Some (Foreign id) ->
  st_opts st !! o = Some op -> truthy (outcomeRedirector op) = false ->
  host rl id (entry_state rl st target o context A) context (entry_args h sep) =
    BFire (VRef (injected_loc h s)) R false (BReturn u) ->
  exists st',
    call_promiseified rl st target o context A = (st', Normal (VRef (length h))) /\
    (promise_state (st_heap st') (length h) =
       Some match s with
            | OnSuccess => Fulfilled (PArgs R)
            | OnError => Rejected (PArgs R)
            end \/
     exists e, promise_state (st_heap st') (length h) = Some (Rejected (PExn e)) /\
               isFunction rl h (handler_of s sep) = true).
Proof.
  intros h sep Hc Hop Hfalsy Hhost.
  assert (Hc3 : code_of (entry_heap rl h o sep) target = Some (Foreign id))
    by (eapply code_of_extends; [apply entry_heap_extends|exact Hc]).
  rewrite call_promiseified_unfold. fold h. fold sep.
  unfold apply_target. simpl st_heap. rewrite Hc3.
  unfold entry_state in Hhost. fold h in Hhost. fold sep in Hhost. rewrite Hhost.
  set (st1 := log (with_heap st (entry_heap rl h o sep))
                  (EOriginal target context (entry_args h sep))).
  assert (Hinj : code_of (st_heap st1) (VRef (injected_loc h s)) =
                 Some (Injected s (length h) o (successHandler sep) (failureHandler sep))).
  { destruct s; [apply entry_heap_onSuccess|apply entry_heap_onError]. }
  assert (Hext1 : extends h (st_heap st1)) by apply entry_heap_extends.
  simpl run_body. unfold call_value. rewrite Hinj.
  rewrite (fire_default_unfold rl st1 s (length h) o _ _ R op Hop Hfalsy).
  set (st2 := State _ _ _).
  assert (Hp2 : promise_state (st_heap st2) (length h) = Some Pending).
  { simpl. do 2 apply promise_state_alloc. apply entry_heap_promise. }
  assert (Hext2 : extends h (st_heap st2)).
  { simpl. eapply extends_trans; [exact Hext1|].
    eapply extends_trans; apply extends_alloc. }
  assert (Hcallable : isFunction rl (st_heap st2) (handler_of s sep) = true ->
                      isFunction rl h (handler_of s sep) = true).
  { intros Hf. destruct (separate_handlers rl h A) as [HS HF]. fold sep in HS, HF.
    destruct s; simpl in *.
    - destruct HS as [HS|HS]; [by rewrite HS in Hf|exact HS].
    - destruct HF as [HF|HF]; [by rewrite HF in Hf|exact HF]. }
  destruct s.
  - destruct (executeSuccess rl st2 (length h) (successHandler sep) R) as [st3 [[]|e]] eqn:Hrun.
    + eexists. split; [reflexivity|]. left.
      by rewrite (executeSuccess_promise_state rl st2 _ _ R Pending st3 _ Hp2 Hrun).
    + eexists. split; [reflexivity|]. right. exists e. split.
      * simpl st_heap. rewrite promise_state_settle.
        by rewrite (executeSuccess_promise_state rl st2 _ _ R Pending st3 _ Hp2 Hrun).
      * apply Hcallable. by eapply executeSuccess_thrown.
  - destruct (executeFailure rl st2 (length h) (failureHandler sep) R) as [st3 [[]|e]] eqn:Hrun.
    + eexists. split; [reflexivity|]. left.
      by rewrite (executeFailure_promise_state rl st2 _ _ R Pending st3 _ Hp2 Hrun).
    + eexists. split; [reflexivity|]. right. exists e. split.
      * simpl st_heap. rewrite promise_state_settle.
        by rewrite (executeFailure_promise_state rl st2 _ _ R Pending st3 _ Hp2 Hrun).
      * apply Hcallable. by eapply executeFailure_thrown.
Qed.

Lemma callback_then_return_witness :
  exists st',
    call_promiseified Demo.rl Demo.st_plain (VRef 5) 0 VNull [] = (st', Normal (VRef 16)) /\
    (promise_state (st_heap st') 16 = Some (Fulfilled (PArgs [VNum 7])) \/
     exists e, promise_state (st_heap st') 16 = Some (Rejected (PExn e)) /\
               isFunction Demo.rl Demo.h0
                 (handler_of OnSuccess (separate Demo.rl Demo.h0 [])) = true).
Proof.
  apply (callback_then_return Demo.rl Demo.st_plain (VRef 5) 0 empty_options VNull []
           1 OnSuccess [VNum 7] VUndefined); reflexivity.
Defined.

(** X13: an original that returns without having called either injected
    handler leaves the promise pending: the adapted call returns the
    promise, nothing but the entry of the original is on the trace, and no
    object that was in the heap has changed.  The adapter sets no timer and
    no default outcome. *)
Theorem silent_original_leaves_pending rl st target o context A id u :
  let h := st_heap st in
  let sep := separate rl h A in
  code_of h target = Some (Foreign id) ->
  host rl id (entry_state rl st target o context A) context (entry_args h sep) = BReturn u ->
  call_promiseified rl st target o context A =
    (entry_state rl st target o context A, Normal (VRef (length h))) /\
  promise_state (st_heap (entry_state rl st target o context A)) (length h) = Some Pending /\
  st_trace (entry_state rl st target o context A) =
    st_trace st ++ [EOriginal target context (entry_args h sep)] /\
  st_opts (entry_state rl st target o context A) = st_opts st /\
  forall l, l < length h -> st_heap (entry_state rl st target o context A) !! l = h !! l.
Proof.
  intros h sep Hc Hhost.
  assert (Hc3 : code_of (entry_heap rl h o sep) target = Some (Foreign id))
    by (eapply code_of_extends; [apply entry_heap_extends|exact Hc]).
  split; [|split; [|split; [|split]]].
  - rewrite call_promiseified_unfold. fold h. fold sep.
    unfold apply_target. simpl st_heap. rewrite Hc3.
    unfold entry_state in Hhost |- *. fold h in Hhost |- *. fold sep in Hhost |- *.
    by rewrite Hhost.
  - apply entry_heap_promise.
  - reflexivity.
  - reflexivity.
  - intros l Hl. simpl. unfold entry_heap. by rewrite lookup_app_l.
Qed.

Lemma silent_original_leaves_pending_witness :
  call_promiseified Demo.rl Demo.st_plain (VRef 4) 0 VNull [VNum 1] =
    (entry_state Demo.rl Demo.st_plain (VRef 4) 0 VNull [VNum 1], Normal (VRef 16)) /\
  promise_state (st_heap (entry_state Demo.rl Demo.st_plain (VRef 4) 0 VNull [VNum 1])) 16 =
    Some Pending /\
  st_trace (entry_state Demo.rl Demo.st_plain (VRef 4) 0 VNull [VNum 1]) =
    [] ++ [EOriginal (VRef 4) VNull
             (entry_args Demo.h0 (separate Demo.rl Demo.h0 [VNum 1]))] /\
  st_opts (entry_state Demo.rl Demo.st_plain (VRef 4) 0 VNull [VNum 1]) = [empty_options] /\
  forall l, l < 16 ->
    st_heap (entry_state Demo.rl Demo.st_plain (VRef 4) 0 VNull [VNum 1]) !! l = Demo.h0 !! l.
Proof.
  apply (silent_original_leaves_pending Demo.rl Demo.st_plain (VRef 4) 0 VNull [VNum 1]
           0 VUndefined); reflexivity.
Defined.

(** ** What the separation keeps *)

Lemma separate_two rl h front y z :
  separate rl h (front ++ [y; z]) =
    if isFunction rl h z then
      if isFunction rl h y then Separated y z front
      else Separated z VUndefined (front ++ [y])
    else Separated VUndefined VUndefined (front ++ [y; z]).
Proof.
  unfold separate.
  destruct (Z.eqb_spec (Z.of_nat (length (front ++ [y; z]))) 1) as [Hlen|_].
  { rewrite length_app in Hlen. simpl in Hlen. lia. }
  rewrite arg_last_but_one, !arg_last_of_two.
  destruct (isFunction rl h z), (isFunction rl h y); simpl; try reflexivity.
  - f_equal. rewrite length_app. simpl.
    replace (Z.of_nat (length front + 2) - 2)%Z with (Z.of_nat (length front)) by lia.
    apply slice0_front.
  - f_equal. rewrite length_app. simpl.
    replace (Z.of_nat (length front + 2) - 1)%Z
      with (Z.of_nat (length (front ++ [y]))) by (rewrite length_app; simpl; lia).
    change (front ++ [y; z]) with (front ++ [y] ++ [z]).
    rewrite (assoc_L (++)). apply slice0_front.
Qed.

Lemma list_last_two (A : list value) :
  A = [] \/ (exists a, A = [a]) \/ exists front y z, A = front ++ [y; z].
Proof.
  destruct A as [|z A'] using rev_ind; [by left|]. right.
  destruct A' as [|y front] using rev_ind; [left; by exists z|]. right.
  exists front, y, z. by rewrite <- app_assoc.
Qed.

(** X14: the separation of lines 134-183 loses and invents nothing.  The
    argument list is the forwarded arguments followed by the handlers that
    were recognised, in the order success, failure; a recognised handler is
    callable, a handler not recognised is undefined, and a failure handler
    is only ever recognised together with a success handler. *)
Theorem separate_partitions rl h A :
  let sep := separate rl h A in
  let recognised v := if isFunction rl h v then [v] else [] in
  A = executionArguments sep ++ recognised (successHandler sep)
                             ++ recognised (failureHandler sep) /\
  (isFunction rl h (successHandler sep) = false -> successHandler sep = VUndefined) /\
  (isFunction rl h (failureHandler sep) = false -> failureHandler sep = VUndefined) /\
  (isFunction rl h (failureHandler sep) = true ->
   isFunction rl h (successHandler sep) = true).
Proof.
  intros sep recognised. subst sep recognised.
  destruct (list_last_two A) as [->|[[a ->]|(front & y & z & ->)]].
  - by cbv.
  - unfold separate. change (arg [a] 0) with a. simpl.
    destruct (isFunction rl h a) eqn:Ha; simpl; rewrite ?Ha; by repeat split.
  - rewrite separate_two.
    destruct (isFunction rl h z) eqn:Hz; [destruct (isFunction rl h y) eqn:Hy|]; simpl;
      rewrite ?Hz, ?Hy; simpl; repeat split; try done;
      rewrite ?app_nil_r, <- ?app_assoc; reflexivity.
Qed.

Lemma separate_partitions_witness :
  let sep := separate Demo.rl Demo.h0 [VNum 1; VRef 5; VRef 4] in
  let recognised v := if isFunction Demo.rl Demo.h0 v then [v] else [] in
  [VNum 1; VRef 5; VRef 4] =
    executionArguments sep ++ recognised (successHandler sep)
                           ++ recognised (failureHandler sep) /\
  (isFunction Demo.rl Demo.h0 (successHandler sep) = false -> successHandler sep = VUndefined) /\
  (isFunction Demo.rl Demo.h0 (failureHandler sep) = false -> failureHandler sep = VUndefined) /\
  (isFunction Demo.rl Demo.h0 (failureHandler sep) = true ->
   isFunction Demo.rl Demo.h0 (successHandler sep) = true).
Proof. exact (separate_partitions Demo.rl Demo.h0 [VNum 1; VRef 5; VRef 4]). Defined.

(** ** The preset and an option object that is shared *)

Lemma doPromiseify_record rl st target o context :
  let st' := (doPromiseify rl st target (Some o) context).1 in
  st_opts st' = st_opts st /\ extends (st_heap st) (st_heap st').
Proof.
  destruct (isFunction rl (st_heap st) target) eqn:Hf.
  - unfold doPromiseify. simpl normalize_options. cbv iota beta. rewrite Hf.
    unfold promiseifyFunction, alloc. simpl. split; [reflexivity|apply extends_alloc].
  - destruct (doPromiseify_members rl st target o context Hf) as (Hopts & Hext & _).
    by split.
Qed.

(** X15: nodeStyle writes its redirector into the option object it is
    given (line 289), in place of whatever outcomeRedirector the object had;
    only, include and exclude stay.  The functions that were adapted earlier
    are untouched, and those of them that were adapted with the same option
    object read the redirector from it (lines 216-231), so they are
    error-first from then on as well. *)
Theorem nodeStyle_rewires_shared_options rl st target o op :
  st_opts st !! o = Some op ->
  let h := st_heap st in
  let st' := (nodeStyle rl st target (Some o)).1 in
  st_opts st' !! o = Some (set_redirector op (VRef (length h))) /\
  code_of (st_heap st') (VRef (length h)) = Some ErrorFirst /\
  error_first_at st' o /\
  (forall o', o' <> o -> st_opts st' !! o' = st_opts st !! o') /\
  (forall w c, code_of h (VRef w) = Some c -> code_of (st_heap st') (VRef w) = Some c).
Proof.
  intros Hop h st'. subst st'.
  unfold nodeStyle, alloc, buildWithOutcomeRedirector, Promiseify.
  simpl normalize_options. cbv iota beta. simpl st_opts. rewrite Hop.
  set (h1 := st_heap st ++ [Object (KFunction ErrorFirst) ∅ (Some (Function_prototype rl))]).
  set (st2 := State _ _ _).
  assert (Hr : code_of h1 (VRef (length h)) = Some ErrorFirst).
  { simpl. unfold h1. rewrite lookup_app_r by (subst h; lia). subst h.
    by rewrite Nat.sub_diag. }
  destruct (doPromiseify_record rl st2 target o VNull) as [Hopts Hext].
  simpl st_heap in Hext. fold h1 in Hext.
  assert (Hrec : st_opts (doPromiseify rl st2 target (Some o) VNull).1 !! o =
                 Some (set_redirector op (VRef (length h)))).
  { rewrite Hopts. simpl. apply list_lookup_insert_eq. by eapply lookup_lt_Some. }
  assert (Hcode : code_of (st_heap (doPromiseify rl st2 target (Some o) VNull).1)
                          (VRef (length h)) = Some ErrorFirst)
    by (eapply code_of_extends; [exact Hext|exact Hr]).
  split; [exact Hrec|]. split; [exact Hcode|]. split; [|split].
  - exists (set_redirector op (VRef (length h))), (length h). by repeat split.
  - intros o' Hne. rewrite Hopts. simpl. by apply list_lookup_insert_ne.
  - intros w c Hc. eapply code_of_extends; [exact Hext|].
    eapply code_of_extends; [apply extends_alloc|exact Hc].
Qed.

Lemma nodeStyle_rewires_shared_options_witness :
  let st' := (nodeStyle Demo.rl Cases.st_user_redirector (VRef 13) (Some 0)).1 in
  st_opts st' !! 0 = Some (Options None None None (VRef 17)) /\
  code_of (st_heap st') (VRef 17) = Some ErrorFirst /\
  error_first_at st' 0 /\
  (forall o', o' <> 0 -> st_opts st' !! o' = st_opts Cases.st_user_redirector !! o') /\
  (forall w c, code_of Cases.h_pending (VRef w) = Some c ->
               code_of (st_heap st') (VRef w) = Some c).
Proof.
  apply (nodeStyle_rewires_shared_options Demo.rl Cases.st_user_redirector (VRef 13) 0
           (Options None None None (VRef 4))).
  reflexivity.
Defined.

(** ** The function names of an adapted object *)

#[global] Instance string_le_antisym : AntiSymm (=) string_le.
Proof.
  intros a b. rewrite !string_le_iff. intros [Hab|Hab] [Hba|Hba]; auto.
  pose proof (OrderedTypeEx.String_as_OT.lt_trans _ _ _ Hab Hba) as Haa.
  by apply OrderedTypeEx.String_as_OT.lt_not_eq in Haa.
Qed.

#[global] Instance selects_dec rl h l op name : Decision (selects rl h l op name).
Proof.
  unfold selects. destruct (only op), (include op), (exclude op); apply _.
Defined.

Lemma elem_of_getAllFunctionNames rl h l name :
  isObject h (VRef l) = true ->
  name ∈ getAllFunctionNames rl h (VRef l) <->
  exists a, a ∈ proto_chain h l /\ contributes rl h a name.
Proof.
  intros Hobj. unfold getAllFunctionNames, sort. simpl truthy. rewrite Hobj. simpl andb.
  cbv iota. rewrite merge_sort_Permutation, elem_of_collect_chain.
  split; [|by right]. intros [Hnil|H]; [by apply elem_of_nil in Hnil|exact H].
Qed.

Lemma getAllFunctionNames_ext rl h h' l :
  isObject h (VRef l) = true -> isObject h' (VRef l) = true ->
  (forall name, (exists a, a ∈ proto_chain h' l /\ contributes rl h' a name) <->
                (exists a, a ∈ proto_chain h l /\ contributes rl h a name)) ->
  getAllFunctionNames rl h' (VRef l) = getAllFunctionNames rl h (VRef l).
Proof.
  intros Hobj Hobj' Hsame.
  apply (StronglySorted_unique string_le).
  - apply StronglySorted_merge_sort; apply _.
  - apply StronglySorted_merge_sort; apply _.
  - apply NoDup_Permutation; try apply NoDup_getAllFunctionNames.
    intros name. rewrite !elem_of_getAllFunctionNames by assumption. apply Hsame.
Qed.

(** X16: adapting an object does not change its list of function names.
    A wrapper is callable and takes the place, as an own property, of a
    name that already resolved to a callable, so getAllFunctionNames gives
    the same list before and after; a second adaptation with default
    options therefore selects the same members as the first. *)
Theorem adaptation_keeps_function_names rl st l o op context :
  st_opts st !! o = Some op ->
  (forall names, only op = Some names -> NoDup names) ->
  isFunction rl (st_heap st) (VRef l) = false ->
  isObject (st_heap st) (VRef l) = true ->
  l < length (st_heap st) ->
  heap_closed (st_heap st) = true ->
  getAllFunctionNames rl (st_heap (doPromiseify rl st (VRef l) (Some o) context).1) (VRef l) =
  getAllFunctionNames rl (st_heap st) (VRef l).
Proof.
  intros Hop Hnodup Hfun Hobj Hl Hclosed.
  destruct (doPromiseify_members rl st (VRef l) o context Hfun) as (_ & Hext & _).
  destruct (doPromiseify_object_selection rl st l o op context Hop Hnodup Hfun Hobj Hl Hclosed)
    as (st' & Hrun & Hother & Hnames).
  rewrite Hrun in Hext |- *. simpl fst in *.
  set (h := st_heap st) in *. set (h' := st_heap st') in *.
  assert (Hvl : valid h (VRef l) = true) by (by apply valid_lt).
  assert (Hobj' : isObject h' (VRef l) = true) by (by rewrite (isObject_extends h h')).
  assert (Hchain : proto_chain h' l = proto_chain h l) by (by apply proto_chain_extends).
  assert (Hanc : forall a name, a ∈ proto_chain h l -> a <> l ->
                   contributes rl h' a name <-> contributes rl h a name).
  { intros a name Ha Hne. apply proto_chain_le in Ha.
    assert (Hown : own h' a name = own h a name).
    { unfold own. rewrite Hother; [reflexivity|exact Hne|lia]. }
    unfold contributes. rewrite Hown. split.
    - intros (Hn & v & Hv & Hf). split; [exact Hn|]. exists v. split; [exact Hv|].
      rewrite <- (isFunction_extends rl h h' v Hext); [exact Hf|].
      by eapply heap_closed_own.
    - intros (Hn & v & Hv & Hf). split; [exact Hn|]. exists v. split; [exact Hv|].
      rewrite (isFunction_extends rl h h' v Hext); [exact Hf|].
      by eapply heap_closed_own. }
  apply getAllFunctionNames_ext; [exact Hobj|exact Hobj'|].
  intros name. rewrite Hchain. destruct (Hnames name) as [Hadapt Hkeep]. split.
  - intros (a & Ha & Hc). destruct (decide (a = l)) as [->|Hne].
    2:{ exists a. split; [exact Ha|]. by apply Hanc. }
    destruct (isFunction rl h (get h l name)) eqn:Hf.
    + destruct (lookup_chain_hit h (proto_chain h l) name) as (a' & Ha' & Hown).
      { fold (get h l name). destruct (isFunction_ref _ _ _ Hf) as [x ->]. discriminate. }
      exists a'. split; [exact Ha'|]. destruct Hc as [Hn _]. split; [exact Hn|]. eauto.
    + destruct (Hkeep (or_introl eq_refl)) as [Hown _].
      exists l. split; [exact Ha|]. destruct Hc as (Hn & v & Hv & Hfv).
      split; [exact Hn|]. exists v. split; [congruence|].
      rewrite <- (isFunction_extends rl h h' v Hext); [exact Hfv|].
      eapply heap_closed_own; [exact Hclosed|]. by rewrite <- Hown.
  - intros (a & Ha & Hc). destruct (decide (a = l)) as [->|Hne].
    2:{ exists a. split; [exact Ha|]. by apply Hanc. }
    exists l. split; [exact Ha|]. destruct Hc as (Hn & v & Hv & Hfv).
    split; [exact Hn|].
    assert (Hget : get h l name = v) by (by apply get_own).
    destruct (decide (selects rl h l op name)) as [Hsel|Hnsel].
    + destruct Hadapt as (w & _ & Hmem & Hcode); [by rewrite Hget|exact Hsel|].
      exists (VRef w). split; [exact Hmem|]. by eapply code_of_isFunction.
    + destruct (Hkeep (or_intror Hnsel)) as [Hown _].
      exists v. split; [congruence|].
      rewrite (isFunction_extends rl h h' v Hext); [exact Hfv|].
      by eapply heap_closed_own.
Qed.

Lemma adaptation_keeps_function_names_witness :
  getAllFunctionNames Demo.rl
    (st_heap (doPromiseify Demo.rl Cases.st_include Demo.manager (Some 0) VNull).1)
    Demo.manager =
  getAllFunctionNames Demo.rl Demo.h0 Demo.manager.
Proof.
  apply (adaptation_keeps_function_names Demo.rl Cases.st_include 8 0
           (Options None (Some ["load"; "toString"; "version"; "load"])
                    (Some ["save"; "toString"]) VUndefined) VNull);
    try (vm_compute; reflexivity).
  - intros names; discriminate.
  - simpl. lia.
Defined.

(** ** What a call does to the option records *)

Lemma same_lists_refl st : same_lists st st.
Proof. split; [reflexivity|]. intros o op Hop. exists op. by repeat split. Qed.

Lemma same_lists_eq st st' : st_opts st' = st_opts st -> same_lists st st'.
Proof.
  intros Heq. split; [by rewrite Heq|]. intros o op Hop. exists op. rewrite Heq.
  by repeat split.
Qed.

Lemma same_lists_trans st1 st2 st3 :
  same_lists st1 st2 -> same_lists st2 st3 -> same_lists st1 st3.
Proof.
  intros [Hlen12 H12] [Hlen23 H23]. split; [congruence|].
  intros o op Hop.
  destruct (H12 o op Hop) as (op2 & Hop2 & Ho2 & Hi2 & He2 & Hk2).
  destruct (H23 o op2 Hop2) as (op3 & Hop3 & Ho3 & Hi3 & He3 & Hk3).
  exists op3. split; [exact Hop3|]. repeat split; try congruence.
  intros Ht. specialize (Hk2 Ht). subst op2. by apply Hk3.
Qed.

Lemma ensure_redirector_same_lists rl st o s : same_lists st (ensure_redirector rl st o s).
Proof.
  unfold ensure_redirector. destruct (st_opts st !! o) as [op|] eqn:Hop;
    [|apply same_lists_refl].
  destruct (truthy (outcomeRedirector op)) eqn:Ht; [apply same_lists_refl|].
  simpl. split; [simpl; by rewrite length_insert|].
  intros o' op' Hop'. simpl. destruct (decide (o' = o)) as [->|Hne].
  - rewrite list_lookup_insert_eq by (by eapply lookup_lt_Some).
    assert (op' = op) by congruence. subst op'.
    eexists. split; [reflexivity|]. repeat split. congruence.
  - rewrite list_lookup_insert_ne by done. exists op'. by repeat split.
Qed.

Lemma fire_same_lists rl st s p o sH fH R : same_lists st (fire rl st s p o sH fH R).1.
Proof.
  eapply same_lists_trans; [apply (ensure_redirector_same_lists rl st o s)|].
  apply same_lists_eq, fire_opts.
Qed.

Lemma call_value_same_lists rl st (f : value) R : same_lists st (call_value rl st f R).1.
Proof.
  unfold call_value.
  destruct (code_of (st_heap st) f) as [[id|t o c|s p o sH fH| | |]|]; simpl;
    try apply same_lists_refl.
  apply fire_same_lists.
Qed.

Lemma run_body_same_lists rl b : forall st, same_lists st (run_body rl st b).1.
Proof.
  induction b as [v|e|f R caught k IH]; intros st; simpl; try apply same_lists_refl.
  pose proof (call_value_same_lists rl st f R) as Hcall.
  destruct (call_value rl st f R) as [st1 [u|e]]; simpl in *.
  - eapply same_lists_trans; [exact Hcall|apply IH].
  - destruct caught; [|exact Hcall].
    eapply same_lists_trans; [exact Hcall|apply IH].
Qed.

Lemma apply_target_same_lists rl st target context args :
  same_lists st (apply_target rl st target context args).1.
Proof.
  unfold apply_target.
  destruct (code_of (st_heap st) target) as [[id|t o' c|s p o' sH fH| | |]|]; simpl;
    try (by apply same_lists_eq).
  eapply same_lists_trans; [|apply run_body_same_lists]. by apply same_lists_eq.
Qed.

Lemma call_promiseified_same_lists rl st target o context A :
  same_lists st (call_promiseified rl st target o context A).1.
Proof.
  rewrite call_promiseified_unfold.
  pose proof (apply_target_same_lists rl
                (with_heap st (entry_heap rl (st_heap st) o (separate rl (st_heap st) A)))
                target context (entry_args (st_heap st) (separate rl (st_heap st) A)))
    as Hrun.
  destruct (apply_target _ _ _ _ _) as [st1 [u|e]]; simpl in *.
  - eapply same_lists_trans; [|exact Hrun]. by apply same_lists_eq.
  - eapply same_lists_trans; [|eapply same_lists_trans; [exact Hrun|]];
      by apply same_lists_eq.
Qed.

(** X17: calling a function of the adapter, whatever the original and the
    handlers do, touches the option objects in one way only: a record
    without an outcomeRedirector may receive one (lines 216 and 228).  No
    record appears or disappears, only, include and exclude of every record
    stay as they were, and a record whose redirector is set stays
    altogether unchanged. *)
Theorem invoke_keeps_option_lists rl st (w : value) A :
  let st' := (invoke rl st w A).1 in
  length (st_opts st') = length (st_opts st) /\
  forall o op, st_opts st !! o = Some op ->
    exists op', st_opts st' !! o = Some op' /\
                only op' = only op /\ include op' = include op /\ exclude op' = exclude op /\
                (truthy (outcomeRedirector op) = true -> op' = op).
Proof.
  change (same_lists st (invoke rl st w A).1). unfold invoke.
  destruct (code_of (st_heap st) w) as [[id|t o c|s p o sH fH| | |]|]; simpl;
    try apply same_lists_refl.
  - apply call_promiseified_same_lists.
  - pose proof (fire_same_lists rl st s p o sH fH A) as Hfire.
    by destruct (fire rl st s p o sH fH A) as [st1 [u|e]].
Qed.

Lemma invoke_keeps_option_lists_witness :
  let st := (Promiseify Demo.rl Demo.st0 (VRef 10) None).1 in
  let st' := (invoke Demo.rl st (VRef 16) [VBool true]).1 in
  length (st_opts st') = length (st_opts st) /\
  forall o op, st_opts st !! o = Some op ->
    exists op', st_opts st' !! o = Some op' /\
                only op' = only op /\ include op' = include op /\ exclude op' = exclude op /\
                (truthy (outcomeRedirector op) = true -> op' = op).
Proof.
  exact (invoke_keeps_option_lists Demo.rl (Promiseify Demo.rl Demo.st0 (VRef 10) None).1
           (VRef 16) [VBool true]).
Defined.

(** ** One promise per call *)

Lemma invoke_promiseified rl st (w : value) target o context A :
  code_of (st_heap st) w = Some (Promiseified target o context) ->
  (invoke rl st w A).2 = Normal (VRef (length (st_heap st))).
Proof.
  intros Hc. unfold invoke. rewrite Hc. rewrite call_promiseified_unfold.
  by destruct (apply_target _ _ _ _ _) as [st1 [u|e]].
Qed.

(** X18: every call of an adapted function returns a promise of its own.
    Two calls in a row return two different promises, neither of which was
    in the heap before its call, and a promise that the first call left
    settled is still settled the same way after the second. *)
Theorem each_call_has_its_own_promise rl st (w : value) target o context A B :
  code_of (st_heap st) w = Some (Promiseified target o context) ->
  let first := invoke rl st w A in
  let second := invoke rl first.1 w B in
  exists p1 p2,
    first.2 = Normal (VRef p1) /\ second.2 = Normal (VRef p2) /\
    st_heap st !! p1 = None /\ st_heap first.1 !! p2 = None /\ p1 < p2 /\
    forall s, promise_state (st_heap first.1) p1 = Some s -> s <> Pending ->
              promise_state (st_heap second.1) p1 = Some s.
Proof.
  intros Hc first second.
  pose proof (invoke_extends rl st w A) as Hext1. fold first in Hext1.
  pose proof (invoke_extends rl first.1 w B) as Hext2. fold second in Hext2.
  assert (Hc1 : code_of (st_heap first.1) w = Some (Promiseified target o context))
    by (eapply code_of_extends; eauto).
  exists (length (st_heap st)), (length (st_heap first.1)).
  split; [by eapply invoke_promiseified|]. split; [by eapply invoke_promiseified|].
  split; [by apply lookup_ge_None_2|]. split; [by apply lookup_ge_None_2|].
  split.
  - assert (Hgrow : length (st_heap st) + 3 <= length (st_heap first.1)).
    { subst first. unfold invoke. rewrite Hc.
      pose proof (call_promiseified_grows rl st target o context A) as [Hg _].
      apply extends_length in Hg. rewrite entry_heap_length in Hg. exact Hg. }
    lia.
  - intros s Hs Hne. by eapply promise_state_extends_settled.
Qed.

Lemma each_call_has_its_own_promise_witness :
  let st := (Promiseify Demo.rl Demo.st0 (VRef 10) None).1 in
  let first := invoke Demo.rl st (VRef 16) [VBool true] in
  let second := invoke Demo.rl first.1 (VRef 16) [VBool false] in
  exists p1 p2,
    first.2 = Normal (VRef p1) /\ second.2 = Normal (VRef p2) /\
    st_heap st !! p1 = None /\ st_heap first.1 !! p2 = None /\ p1 < p2 /\
    forall s, promise_state (st_heap first.1) p1 = Some s -> s <> Pending ->
              promise_state (st_heap second.1) p1 = Some s.
Proof.
  apply (each_call_has_its_own_promise Demo.rl (Promiseify Demo.rl Demo.st0 (VRef 10) None).1
           (VRef 16) (VRef 10) 0 VNull).
  vm_compute. reflexivity.
Defined.
